(** * bpvo: the per-level template data of the direct visual odometry

    Shallow embedding of [bpvo/template_data_.h]: the pixel selector
    [getValidPixelsLocations], the extraction [TemplateData_::setData] and
    the residual evaluation [TemplateData_::computeResiduals].

    Conventions of the embedding.
    - [float] values are read as the rationals they denote ([Q]).  The
      first embedding computes exactly: [+], [-], [*] are the operations on
      the rationals and [cvFloor] is the integer floor.  It carries the
      statements that rounding does not touch: sizes, frames, slots,
      bounds of the accesses, valid flags, values at integer coordinates.
      The module [Single] embeds [setData] and [computeResiduals] once more
      with the rounding of every operation written out, and carries the
      statements about the values that are computed.  Infinities and NaN
      are outside both.
    - [int] and [size_t] values are integers of [Z] or [nat]; signed
      overflow is undefined in C++ and is not given a meaning here.
    - A [std::vector] is a list.  Accesses through raw pointers
      ([c_ptr[ii]], [J_ptr[i]], [r_ptr[i]]) are checked: an access outside
      the buffer makes the whole call undefined, which is [None].  The
      lemmas [setData_total] and [computeResiduals_total] show that the
      calls are defined on channels that meet their contract.
    - The template parameters [WarpType] and [ChannelsType] are type
      classes; the headers that are not part of [template_data_.h] are
      either class members or modelled from the specification.
    - The [printf]/[std::cout] diagnostics of [computeResiduals] only write
      to the console and are left out.
    - [clear], [resize] and the extraction written for TBB
      ([TemplateDataExtractor], not compiled by default) are modelled as
      well; [tbb::parallel_for] runs the blocks of a schedule one after the
      other. *)

From Stdlib Require Import ZArith QArith Qround Lia Lqa.
From stdpp Require Import base tactics option list numbers sorting.

Set Default Proof Using "Type".
Local Open Scope Z_scope.

(** ** Numeric and image types *)

Abbreviation float := Q (only parsing).

(** OpenCV's [cvFloor]: the largest integer not above the argument. *)
Definition cvFloor (x : float) : Z := Qfloor x.
Arguments cvFloor : simpl never.

(** A [cv::Mat_<T>] header with its row-major pixel buffer. *)
Record Mat := MkMat { rows : Z; cols : Z; data : list float }.

Definition Matrix33 := Z → Z → float.
Definition Matrix44 := Z → Z → float.

(** Eigen row vector [Matrix<float,1,P>] and the [2 x P] warp Jacobian,
    stored as its two rows. *)
Definition Jacobian := list float.
Definition WarpJacobian := (list float * list float)%type.

(** [ImageGradient(gx, gy) * Jw]: a [1 x 2] row times a [2 x P] matrix. *)
Definition ImageGradient_mul (g : float * float) (Jw : WarpJacobian) : Jacobian :=
  zip_with (λ a b, (g.1 * a + g.2 * b)%Q) Jw.1 Jw.2.

(** [Eigen::Vector4f::dot]. *)
Definition dot4 (w v : float * float * float * float) : float :=
  let '(w0, w1, w2, w3) := w in
  let '(v0, v1, v2, v3) := v in
  (w0 * v0 + w1 * v1 + w2 * v2 + w3 * v3)%Q.

(** ** Single precision

    The definitions above read a [float] as the rational it denotes and
    compute exactly.  The code computes in binary32: every operation
    rounds its exact result to the nearest binary32 value, ties to even.
    [binary32] is that rounding on the rationals: 24 significant bits, the
    exponent of the last place at least -149 (subnormal numbers).  A finite
    binary32 value is still read as the rational it denotes; overflow to
    infinity and NaN are outside the model. *)

(** The integer part of the binary logarithm of [|q|], for [q] other than
    zero. *)
Definition Qlog2 (q : Q) : Z :=
  let a := Z.abs (Qnum q) in
  let b := Zpos (Qden q) in
  let d := Z.log2 a - Z.log2 b in
  if decide (a * 2 ^ Z.max 0 (- d) < b * 2 ^ Z.max 0 d) then d - 1 else d.

(** The nearest integer, ties to the even one. *)
Definition round_half_even (q : Q) : Z :=
  let f := Qfloor q in
  match (q - inject_Z f ?= 1 # 2)%Q with
  | Lt => f
  | Gt => f + 1
  | Eq => if Z.even f then f else f + 1
  end.

Definition binary32 (q : Q) : Q :=
  if decide (Qnum q = 0) then 0%Q else
  let e := Z.max (-149) (Qlog2 q - 23) in
  Qred (inject_Z (round_half_even (q / Qpower 2 e)) * Qpower 2 e).

(** ** Raw pointer accesses and counted loops *)

(** [p[i]] read through a pointer to the first element of [buf]. *)
Definition ptr_read {A} (buf : list A) (i : Z) : option A :=
  if decide (0 ≤ i) then buf !! Z.to_nat i else None.

(** [p[i] = v] written through a pointer to the first element of [buf]. *)
Definition ptr_write {A} (buf : list A) (i : nat) (v : A) : option (list A) :=
  if decide (i < length buf)%nat then Some (<[i := v]> buf) else None.

(** [for (i = lo; i < lo + count; ++i) body], threading the loop state. *)
Fixpoint for_range {S} (lo count : nat) (body : nat → S → option S) (s : S)
  : option S :=
  match count with
  | O => Some s
  | Datatypes.S k => s' ← body lo s; for_range (Datatypes.S lo) k body s'
  end.

(** The shape of the two-level loops of the file: for every channel [c] of
    a block and every point [i], the value of slot [(c, i)] is computed and
    written at [c * n + i]. *)
Definition fill_body {V} (val : nat → nat → option V) (n c i : nat)
    (l : list V) : option (list V) :=
  v ← val c i; ptr_write l (c * n + i) v.

Definition fill_rows {V} (val : nat → nat → option V) (n b count : nat)
    (l : list V) : option (list V) :=
  for_range b count (λ c l, for_range 0 n (fill_body val n c) l) l.

(** Slot [(c', i')] is visited before the loops, started at channel [b],
    reach [(c, i)]. *)
Definition visited (n b c i c' i' : nat) : Prop :=
  (b ≤ c' < c ∧ i' < n)%nat ∨ (c' = c ∧ i' < i)%nat.

(** Invariant of a slot-filling loop: the length is kept, the visited
    slots hold their values, every other slot is as it was. *)
Definition fill_inv {V} (val : nat → nat → option V) (n b : nat)
    (l0 : list V) (c i : nat) (l : list V) : Prop :=
  length l = length l0 ∧
  (∀ c' i', visited n b c i c' i' →
            is_Some (val c' i') ∧ l !! (c' * n + i')%nat = val c' i') ∧
  (∀ k, (∀ c' i', visited n b c i c' i' → k ≠ (c' * n + i')%nat) →
        l !! k = l0 !! k).

(** [tbb::parallel_for(range, body)] invokes the body on blocks of the
    range.  A schedule is the list of the blocks [[begin, end)] in the order
    in which they run; the blocks run one after the other. *)
Fixpoint parallel_for {S} (schedule : list (nat * nat))
    (body : nat * nat → S → option S) (s : S) : option S :=
  match schedule with
  | [] => Some s
  | r :: rest => s' ← body r s; parallel_for rest body s'
  end.

(** Index [c] lies in a block of the schedule; the schedule covers exactly
    [[lo, hi)]. *)
Definition covered (schedule : list (nat * nat)) (c : nat) : Prop :=
  ∃ r, r ∈ schedule ∧ (r.1 ≤ c < r.2)%nat.

Definition covers (schedule : list (nat * nat)) (lo hi : nat) : Prop :=
  ∀ c, covered schedule c ↔ (lo ≤ c < hi)%nat.

(** ** The capabilities the template is generic over *)

(** [WarpType]: the warp model. *)
Class WarpType (Warp : Type) := {
  Point : Type;
  (** what a default-constructed [Point] or [Jacobian] holds (Eigen leaves
      them uninitialised) *)
  Point_uninit : Point;
  Jacobian_uninit : Jacobian;
  (** number of pose parameters, the length of a [Jacobian] *)
  NumParams : nat;
  newWarp : Matrix33 → float → Warp;
  makePoint : Warp → Z → Z → float → Point;
  warpJacobianAtZero : Warp → Point → WarpJacobian;
  setPose : Warp → Matrix44 → Warp;
  (** [operator()]: projection under the current pose *)
  project : Warp → Point → float * float;
  K : Warp → Matrix33;
}.

(** [ChannelsType]: the multi-channel image. *)
Class ChannelsType (Channels : Type) := {
  NumChannels : nat;
  size : Channels → nat;
  (** [operator[]] *)
  channel : Channels → nat → Mat;
  computeSaliencyMap : Channels → Mat;
}.

(** [channels.channelData(c)]: the buffer of channel [c]. *)
Definition channelData `{ChannelsType Channels} (ch : Channels) (c : nat)
  : list float := data (channel ch c).

(** The disparity map and the parts of the pixel selection that live in
    other headers of the library. *)
Class DisparityType (Disparity : Type) := {
  (** [D.type() == cv::DataType<float>::type] *)
  is_float_type : Disparity → bool;
  (** [DisparityPyramidLevel(D, pyr_level)(y, x)] *)
  DisparityPyramidLevel : Disparity → Z → Z → Z → float;
  (** the disparity at a pixel is a usable depth reading *)
  is_valid_depth : float → bool;
  (** the saliency at [(y, x)] is a local maximum within the radius *)
  is_local_max : Mat → Z → Z → Z → bool;
  (** [AlgorithmParameters::MIN_NUM_FOR_PIXEL_PSELECTION] *)
  MIN_NUM_FOR_PIXEL_PSELECTION : Z;
}.

(** Modelled from the spec: [ValidPixelPredicate] (declared outside
    [template_data_.h]).  A pixel is eligible if it has a valid depth
    reading and, when non-maximum suppression is enabled (a positive
    radius), is a local maximum of saliency within the radius. *)
Definition ValidPixelPredicate `{DisparityType Disparity}
    (dmap : Z → Z → float) (smap : Mat) (nms_radius : Z) (y x : Z) : bool :=
  is_valid_depth (dmap y x) &&
  (if decide (0 < nms_radius) then is_local_max smap nms_radius y x else true).

(** Modelled from the spec: [ind2sub] (declared in [bpvo/utils.h]) converts a
    linear index back to (row, column) using the row stride, with C++
    integer division. *)
Definition ind2sub (stride ind : Z) : Z * Z :=
  (Z.quot ind stride, Z.rem ind stride).

(** [m(y, x)]: the sample of an image at row [y] and column [x]. *)
Definition Mat_at (m : Mat) (y x : Z) : option float :=
  ptr_read (data m) (y * cols m + x).

(** The contract of the channels capability: as many channels as
    [NumChannels], all of the size of the first one, each with a buffer of
    [rows * cols] samples, and a saliency map aligned with the image grid. *)
Definition Channels_wf `{ChannelsType Channels} (ch : Channels) : Prop :=
  size ch = NumChannels ∧
  rows (computeSaliencyMap ch) = rows (channel ch 0) ∧
  cols (computeSaliencyMap ch) = cols (channel ch 0) ∧
  ∀ c, (c < size ch)%nat →
    rows (channel ch c) = rows (channel ch 0) ∧
    cols (channel ch c) = cols (channel ch 0) ∧
    Z.of_nat (length (data (channel ch c))) =
      rows (channel ch c) * cols (channel ch c).

(** ** Pixel selection *)

Section Selection.
Context `{DisparityType Disparity}.

Definition getValidPixelsLocations (dmap : Z → Z → float) (smap : Mat)
    (nms_radius : Z) (do_nonmax_supp : bool) : list (Z * float) :=
  let is_pixel_valid :=
    ValidPixelPredicate dmap smap (if do_nonmax_supp then nms_radius else -1) in
  let border := Z.max 2 nms_radius in
  foldl (λ ret y,
      foldl (λ ret x,
          if is_pixel_valid y x
          then ret ++ [(y * cols smap + x, dmap y x)]
          else ret)
        ret (seqZ border (cols smap - border - 1 - border)))
    [] (seqZ border (rows smap - border - 1 - border)).

(** The selection as the specification words it for disabled
    suppression: the pixels returned are exactly those with a valid depth
    reading that lie inside a margin of [m] pixels from every edge; the
    specification names [m = max(2, nms_radius)]. *)
Definition selection_is_margin_interior (m : Z) (dmap : Z → Z → float)
    (smap : Mat) (nms_radius : Z) : Prop :=
  ∀ y x, 0 ≤ y < rows smap → 0 ≤ x < cols smap →
    (y * cols smap + x, dmap y x)
      ∈ getValidPixelsLocations dmap smap nms_radius false ↔
    m ≤ y < rows smap - m ∧ m ≤ x < cols smap - m ∧
    is_valid_depth (dmap y x) = true.

End Selection.

(** ** The template store *)

Section TemplateData.
Context `{WarpType Warp} `{ChannelsType Channels} `{DisparityType Disparity}.

Record TemplateData := MkTemplateData {
  _pyr_level : Z;
  _jacobians : list Jacobian;
  _points : list Point;
  _pixels : list float;
  _warp : Warp;
}.

(** The constructor: empty arrays, a warp built from the intrinsics. *)
Definition newTemplateData (Kmat : Matrix33) (baseline : float) (pyr_level : Z)
  : TemplateData :=
  MkTemplateData pyr_level [] [] [] (newWarp Kmat baseline).

Definition numPoints (st : TemplateData) : nat := length (_points st).
Definition numPixels (st : TemplateData) : nat := length (_pixels st).

Definition Jacobian_Zero : Jacobian := replicate NumParams 0%Q.

(** *** [setData] *)

(** Body of the loop that computes the points. *)
Definition setData_point (w : Warp) (stride : Z) (inds : list (Z * float))
    (i : nat) (points : list Point) : option (list Point) :=
  ind ← inds !! i;
  let '(y, x) := ind2sub stride ind.1 in
  ptr_write points i (makePoint w x y ind.2).

(** Body of the inner loop over the points of channel [c]. *)
Definition setData_pixel (Fx Fy : float) (stride : Z) (inds : list (Z * float))
    (Jw : list WarpJacobian) (c_ptr : list float) (offset : nat)
    (i : nat) (PJ : list float * list Jacobian)
  : option (list float * list Jacobian) :=
  ind ← inds !! i;
  let ii := ind.1 in
  p ← ptr_read c_ptr ii;
  P' ← ptr_write PJ.1 (offset + i)%nat p;
  xp ← ptr_read c_ptr (ii + 1);
  xm ← ptr_read c_ptr (ii - 1);
  yp ← ptr_read c_ptr (ii + stride);
  ym ← ptr_read c_ptr (ii - stride);
  let Ix := (xp - xm)%Q in
  let Iy := (yp - ym)%Q in
  jw ← Jw !! i;
  J' ← ptr_write PJ.2 (offset + i)%nat (ImageGradient_mul ((Fx * Ix)%Q, (Fy * Iy)%Q) jw);
  Some (P', J').

(** The pixels [setData] selects: [inds] in the source. *)
Definition setData_inds (pyr_level : Z) (channels : Channels) (D : Disparity)
  : list (Z * float) :=
  let smap := computeSaliencyMap channels in
  let do_nonmax_supp :=
    bool_decide (MIN_NUM_FOR_PIXEL_PSELECTION ≤ rows smap * cols smap) in
  let nms_radius := 1 in
  getValidPixelsLocations (DisparityPyramidLevel D pyr_level) smap
    nms_radius do_nonmax_supp.

Definition setData (st : TemplateData) (channels : Channels) (D : Disparity)
  : option TemplateData :=
  if negb (is_float_type D) then None else
  let smap := computeSaliencyMap channels in
  let inds := setData_inds (_pyr_level st) channels D in
  let n := length inds in
  let stride := cols smap in
  points ← for_range 0 n (setData_point (_warp st) stride inds)
              (resize n Point_uninit (_points st));
  let Jw := warpJacobianAtZero (_warp st) <$> points in
  let pixels0 := resize (length points * NumChannels)%nat 0%Q (_pixels st) in
  let jacobians0 :=
    resize (length points * NumChannels)%nat Jacobian_uninit (_jacobians st) in
  let Fx := (K (_warp st) 0%Z 0%Z * (1 # 2))%Q in
  let Fy := (K (_warp st) 1%Z 1%Z * (1 # 2))%Q in
  PJ ← for_range 0 (size channels) (λ c PJ,
          for_range 0 n
            (setData_pixel Fx Fy stride inds Jw (channelData channels c) (c * n)%nat)
            PJ)
        (pixels0, jacobians0);
  Some (MkTemplateData (_pyr_level st) (PJ.2 ++ [Jacobian_Zero]) points PJ.1
          (_warp st)).

(** *** [computeResiduals] *)

Definition Vector2i := (Z * Z)%type.
Definition Vector4f := (float * float * float * float)%type.

(** Body of the first loop: integer parts, valid flags and interpolation
    coefficients of point [i]. *)
Definition computeResiduals_coeffs (w : Warp) (points : list Point)
    (max_rows max_cols : Z) (i : nat)
    (s : list Vector2i * list Z * list Vector4f)
  : option (list Vector2i * list Z * list Vector4f) :=
  let '(uv, valid, interp_coeffs) := s in
  p ← points !! i;
  let x := project w p in
  let xi := cvFloor (x.1 + (1 # 2))%Q in
  let yi := cvFloor (x.2 + (1 # 2))%Q in
  uv' ← ptr_write uv i (xi, yi);
  let xf := (x.1 - inject_Z xi)%Q in
  let yf := (x.2 - inject_Z yi)%Q in
  valid' ← ptr_write valid i
    (Z.b2z (bool_decide (0 ≤ xi) && bool_decide (xi < max_cols) &&
            bool_decide (0 ≤ yi) && bool_decide (yi < max_rows)));
  coeffs' ← ptr_write interp_coeffs i
    (((1 - yf) * (1 - xf))%Q, ((1 - yf) * xf)%Q, (yf * (1 - xf))%Q, (yf * xf)%Q);
  Some (uv', valid', coeffs').

(** Body of the inner loop of the second pass: the residual of point [i]
    on the channel whose buffer is [I_ptr]. *)
Definition computeResiduals_residual (uv : list Vector2i) (valid : list Z)
    (interp_coeffs : list Vector4f) (pixels : list float)
    (I_ptr : list float) (stride : Z) (offset : nat)
    (i : nat) (residuals : list float) : option (list float) :=
  v ← valid !! i;
  if decide (v ≠ 0) then
    xy ← uv !! i;
    let ii := xy.2 * stride + xy.1 in
    cf ← interp_coeffs !! i;
    a ← ptr_read I_ptr ii;
    b ← ptr_read I_ptr (ii + 1);
    c ← ptr_read I_ptr (ii + stride);
    d ← ptr_read I_ptr (ii + stride + 1);
    let Iw := dot4 cf (a, b, c, d) in
    I0 ← pixels !! (offset + i)%nat;
    ptr_write residuals (offset + i)%nat (Iw - I0)%Q
  else
    ptr_write residuals (offset + i)%nat 0%Q.

(** The first pass on its own: the arrays [uv], [valid] and
    [interp_coeffs] after the loop over the points. *)
Definition computeResiduals_pass1 (st : TemplateData) (channels : Channels)
    (pose : Matrix44) (valid : list Z)
  : option (list Vector2i * list Z * list Vector4f) :=
  let max_rows := rows (channel channels 0) - 1 in
  let max_cols := cols (channel channels 0) - 1 in
  let n := numPoints st in
  for_range 0 n
    (computeResiduals_coeffs (setPose (_warp st) pose) (_points st)
       max_rows max_cols)
    (replicate n (0, 0), resize n 0 valid, replicate n (0, 0, 0, 0)%Q).

Definition computeResiduals (st : TemplateData) (channels : Channels)
    (pose : Matrix44) (residuals : list float) (valid : list Z)
  : option (TemplateData * list float * list Z) :=
  let n := numPoints st in
  s ← computeResiduals_pass1 st channels pose valid;
  let '(uv, valid', interp_coeffs) := s in
  residuals' ← for_range 0 (size channels) (λ c r,
      for_range 0 n
        (computeResiduals_residual uv valid' interp_coeffs (_pixels st)
           (channelData channels c) (cols (channel channels c)) (c * n)%nat)
        r)
    (resize (length (_pixels st)) 0%Q residuals);
  Some (MkTemplateData (_pyr_level st) (_jacobians st) (_points st)
          (_pixels st) (setPose (_warp st) pose),
        residuals', valid').

(** *** What the loops leave in a slot

    The value [setData] computes for a selected pixel: its point, and the
    steepest-descent row of the pixel at linear index [ii] of a channel. *)
Definition point_of (w : Warp) (stride : Z) (ind : Z * float) : Point :=
  let '(y, x) := ind2sub stride ind.1 in makePoint w x y ind.2.

Definition steepest_descent_row (Fx Fy : float) (stride : Z)
    (c_ptr : list float) (ii : Z) (jw : WarpJacobian) : option Jacobian :=
  xp ← ptr_read c_ptr (ii + 1);
  xm ← ptr_read c_ptr (ii - 1);
  yp ← ptr_read c_ptr (ii + stride);
  ym ← ptr_read c_ptr (ii - stride);
  Some (ImageGradient_mul ((Fx * (xp - xm))%Q, (Fy * (yp - ym))%Q) jw).

(** The values the first pass of [computeResiduals] computes for a
    projected coordinate [x]. *)
Definition base_cell (x : float * float) : Vector2i :=
  (cvFloor (x.1 + (1 # 2))%Q, cvFloor (x.2 + (1 # 2))%Q).

Definition valid_flag (max_rows max_cols : Z) (xy : Vector2i) : Z :=
  Z.b2z (bool_decide (0 ≤ xy.1) && bool_decide (xy.1 < max_cols) &&
         bool_decide (0 ≤ xy.2) && bool_decide (xy.2 < max_rows)).

Definition bilinear_coeffs (x : float * float) : Vector4f :=
  let xf := (x.1 - inject_Z (base_cell x).1)%Q in
  let yf := (x.2 - inject_Z (base_cell x).2)%Q in
  (((1 - yf) * (1 - xf))%Q, ((1 - yf) * xf)%Q, (yf * (1 - xf))%Q, (yf * xf)%Q).

(** The value the second pass writes for a point with flag [v], base cell
    [xy], coefficients [cf] and reference intensity [I0]. *)
Definition residual_value (I_ptr : list float) (stride : Z) (v : Z)
    (xy : Vector2i) (cf : Vector4f) (I0 : option float) : option float :=
  if decide (v ≠ 0) then
    let ii := xy.2 * stride + xy.1 in
    a ← ptr_read I_ptr ii;
    b ← ptr_read I_ptr (ii + 1);
    c ← ptr_read I_ptr (ii + stride);
    d ← ptr_read I_ptr (ii + stride + 1);
    I0 ← I0;
    Some (dot4 cf (a, b, c, d) - I0)%Q
  else Some 0%Q.

(** *** Loop invariants *)

(** Slot [(c, i)] of the two arrays holds the reference intensity and the
    steepest-descent row of point [i] on channel [c]. *)
Definition slot_extracted (Fx Fy : float) (stride : Z) ch
    (inds : list (Z * float)) (Jw : list WarpJacobian)
    (PJ : list float * list Jacobian) (c i : nat) : Prop :=
  ∃ ind jw p jac,
    inds !! i = Some ind ∧ Jw !! i = Some jw ∧
    ptr_read (channelData ch c) ind.1 = Some p ∧
    steepest_descent_row Fx Fy stride (channelData ch c) ind.1 jw = Some jac ∧
    PJ.1 !! (c * length inds + i)%nat = Some p ∧
    PJ.2 !! (c * length inds + i)%nat = Some jac.

(** Invariant of the channel and point loops: the sizes are kept and
    every slot visited so far is filled. *)
Definition extraction_inv (Fx Fy : float) (stride : Z) ch
    (inds : list (Z * float)) (Jw : list WarpJacobian) (LP LJ : nat)
    (c k : nat) (PJ : list float * list Jacobian) : Prop :=
  length PJ.1 = LP ∧ length PJ.2 = LJ ∧
  ∀ c' i, (c' < c ∧ i < length inds)%nat ∨ (c' = c ∧ i < k)%nat →
          slot_extracted Fx Fy stride ch inds Jw PJ c' i.

(** Slot [(c, i)] of the residual array holds the residual of point [i] on
    channel [c], computed from the first pass on the stored points. *)
Definition slot_residual (w : Warp) (channels : Channels)
    (points : list Point) (pixels : list float) (residuals : list float)
    (c i : nat) : Prop :=
  ∃ p val,
    points !! i = Some p ∧
    residual_value (channelData channels c) (cols (channel channels c))
      (valid_flag (rows (channel channels 0) - 1) (cols (channel channels 0) - 1)
         (base_cell (project w p)))
      (base_cell (project w p)) (bilinear_coeffs (project w p))
      (pixels !! (c * length points + i)%nat) = Some val ∧
    residuals !! (c * length points + i)%nat = Some val.

(** Invariant of the channel and point loops of the residual pass. *)
Definition residual_inv (w : Warp) (channels : Channels)
    (points : list Point) (pixels : list float) (L : nat)
    (c k : nat) (residuals : list float) : Prop :=
  length residuals = L ∧
  ∀ c' i, (c' < c ∧ i < length points)%nat ∨ (c' = c ∧ i < k)%nat →
          slot_residual w channels points pixels residuals c' i.

(** *** The rest of the class *)

(** [clear()] and [resize(n)]; a resized vector of Eigen values holds
    uninitialised entries. *)
Definition TemplateData_clear (st : TemplateData) : TemplateData :=
  MkTemplateData (_pyr_level st) [] [] [] (_warp st).

Definition TemplateData_resize (st : TemplateData) (n : nat) : TemplateData :=
  MkTemplateData (_pyr_level st)
    (resize (n * NumChannels)%nat Jacobian_uninit (_jacobians st))
    (resize n Point_uninit (_points st))
    (resize (n * NumChannels)%nat 0%Q (_pixels st))
    (_warp st).

(** *** The extraction with TBB

    [TemplateDataExtractor::operator()] on the block [[begin, end)] of
    channels.  The loop runs while [c != range.end()], so a block whose end
    lies before its begin never completes.  [&_tdata.J(0)] and
    [&_tdata.I(0)] refer to the first elements of the arrays, which must
    exist.  [_channels[c].ptr()] is read as the buffer of the channel, as
    [channelData(c)] is.  The stride is the one of the channel, where
    [setData] takes the one of the saliency map. *)
Definition TemplateDataExtractor_call (w : Warp) (Jw : list WarpJacobian)
    (inds : list (Z * float)) (channels : Channels) (range : nat * nat)
    (PJ : list float * list Jacobian) : option (list float * list Jacobian) :=
  let Fx := (K w 0%Z 0%Z * (1 # 2))%Q in
  let Fy := (K w 1%Z 1%Z * (1 # 2))%Q in
  if decide (range.2 < range.1)%nat then None else
  for_range range.1 (range.2 - range.1) (λ c PJ,
      let c_ptr := channelData channels c in
      let stride := cols (channel channels c) in
      let offset := (c * length inds)%nat in
      if decide (PJ.1 = [] ∨ PJ.2 = []) then None
      else for_range 0 (length inds)
             (setData_pixel Fx Fy stride inds Jw c_ptr offset) PJ)
    PJ.

(** [setData] as compiled with [TEMPLATE_DATA_SET_DATA_WITH_TBB]: the
    channel loop is a [parallel_for] over [[0, NumChannels)], run here under
    a given schedule. *)
Definition setData_tbb (schedule : list (nat * nat)) (st : TemplateData)
    (channels : Channels) (D : Disparity) : option TemplateData :=
  if negb (is_float_type D) then None else
  let smap := computeSaliencyMap channels in
  let inds := setData_inds (_pyr_level st) channels D in
  let n := length inds in
  let stride := cols smap in
  points ← for_range 0 n (setData_point (_warp st) stride inds)
              (resize n Point_uninit (_points st));
  let Jw := warpJacobianAtZero (_warp st) <$> points in
  let pixels0 := resize (length points * NumChannels)%nat 0%Q (_pixels st) in
  let jacobians0 :=
    resize (length points * NumChannels)%nat Jacobian_uninit (_jacobians st) in
  PJ ← parallel_for schedule
          (TemplateDataExtractor_call (_warp st) Jw inds channels)
          (pixels0, jacobians0);
  Some (MkTemplateData (_pyr_level st) (PJ.2 ++ [Jacobian_Zero]) points PJ.1
          (_warp st)).

(** *** Slot values as functions of the slot

    What the channel and point loops of [setData] compute for slot
    [(c, i)], with the stride used on channel [c]; and what the second pass
    of [computeResiduals] computes for it. *)
Definition extracted_value (Fx Fy : float) (stride : nat → Z)
    (channels : Channels) (inds : list (Z * float)) (Jw : list WarpJacobian)
    (c i : nat) : option (float * Jacobian) :=
  ind ← inds !! i;
  jw ← Jw !! i;
  p ← ptr_read (channelData channels c) ind.1;
  jac ← steepest_descent_row Fx Fy (stride c) (channelData channels c) ind.1 jw;
  Some (p, jac).

Definition residual_at (w : Warp) (channels : Channels) (points : list Point)
    (pixels : list float) (c i : nat) : option float :=
  p ← points !! i;
  residual_value (channelData channels c) (cols (channel channels c))
    (valid_flag (rows (channel channels 0) - 1) (cols (channel channels 0) - 1)
       (base_cell (project w p)))
    (base_cell (project w p)) (bilinear_coeffs (project w p))
    (pixels !! (c * length points + i)%nat).

End TemplateData.

(** ** A test fixture

    A translation warp in the image plane and an 8x8 single-channel ramp
    image with uniform depth, the scenario the specification tests with. *)

(** ** The extraction and the residuals in single precision

    [setData] and [computeResiduals] once more, with the rounding of every
    floating-point operation written out.  [rnd] rounds the exact result of
    one operation; on the machine it is [binary32], and with the identity
    for [rnd] the operations are the exact ones.  [vdot] is the dot product
    of two [Eigen::Vector4f].  The conversions [static_cast<float>] and the
    conversion of [int] to [float] round as well.  The warp, the selection
    of the pixels and the stores are as above. *)

Module Single.

(** The range of [int]. *)
Definition INT_MIN : Z := - 2 ^ 31.
Definition INT_MAX : Z := 2 ^ 31 - 1.

(** [cvFloor(float)]: the largest integer not above the argument.  For a
    value whose floor is outside the range of [int] C++ leaves the
    conversion undefined (the x86 instruction returns [INT_MIN]); such a
    call is undefined here. *)
Definition cvFloor (x : float) : option Z :=
  let z := Qfloor x in
  if decide (INT_MIN ≤ z ≤ INT_MAX) then Some z else None.

Section Single.
Context `{WarpType Warp} `{ChannelsType Channels} `{DisparityType Disparity}.
Variable rnd : float → float.
Variable vdot : Vector4f → Vector4f → float.

(** Eigen sums the four rounded products of a dot product in single
    precision; the order of the three additions depends on how the library
    was compiled (packet reduction, pairwise or sequential). *)
Definition dot_contract : Prop :=
  ∀ w0 w1 w2 w3 v0 v1 v2 v3 : float,
    let p0 := rnd (w0 * v0)%Q in
    let p1 := rnd (w1 * v1)%Q in
    let p2 := rnd (w2 * v2)%Q in
    let p3 := rnd (w3 * v3)%Q in
    let d := vdot (w0, w1, w2, w3) (v0, v1, v2, v3) in
    d = rnd (rnd (p0 + p2) + rnd (p1 + p3))%Q ∨
    d = rnd (rnd (p0 + p1) + rnd (p2 + p3))%Q ∨
    d = rnd (rnd (rnd (p0 + p1) + p2) + p3)%Q.

(** [ImageGradient(gx, gy) * Jw]: entry [k] is [gx * Jw(0,k) + gy * Jw(1,k)],
    two rounded products and their rounded sum. *)
Definition ImageGradient_mul (g : float * float) (Jw : WarpJacobian) : Jacobian :=
  zip_with (λ a b, rnd (rnd (g.1 * a) + rnd (g.2 * b))%Q) Jw.1 Jw.2.

(** Body of the inner loop over the points of channel [c]. *)
Definition setData_pixel (Fx Fy : float) (stride : Z) (inds : list (Z * float))
    (Jw : list WarpJacobian) (c_ptr : list float) (offset : nat)
    (i : nat) (PJ : list float * list Jacobian)
  : option (list float * list Jacobian) :=
  ind ← inds !! i;
  let ii := ind.1 in
  p ← ptr_read c_ptr ii;
  P' ← ptr_write PJ.1 (offset + i)%nat (rnd p);
  xp ← ptr_read c_ptr (ii + 1);
  xm ← ptr_read c_ptr (ii - 1);
  yp ← ptr_read c_ptr (ii + stride);
  ym ← ptr_read c_ptr (ii - stride);
  let Ix := rnd (rnd xp - rnd xm)%Q in
  let Iy := rnd (rnd yp - rnd ym)%Q in
  jw ← Jw !! i;
  J' ← ptr_write PJ.2 (offset + i)%nat
         (ImageGradient_mul (rnd (Fx * Ix)%Q, rnd (Fy * Iy)%Q) jw);
  Some (P', J').

Definition setData (st : TemplateData) (channels : Channels) (D : Disparity)
  : option TemplateData :=
  if negb (is_float_type D) then None else
  let smap := computeSaliencyMap channels in
  let inds := setData_inds (_pyr_level st) channels D in
  let n := length inds in
  let stride := cols smap in
  points ← for_range 0 n (setData_point (_warp st) stride inds)
              (resize n Point_uninit (_points st));
  let Jw := warpJacobianAtZero (_warp st) <$> points in
  let pixels0 := resize (length points * NumChannels)%nat 0%Q (_pixels st) in
  let jacobians0 :=
    resize (length points * NumChannels)%nat Jacobian_uninit (_jacobians st) in
  let Fx := rnd (K (_warp st) 0%Z 0%Z * (1 # 2))%Q in
  let Fy := rnd (K (_warp st) 1%Z 1%Z * (1 # 2))%Q in
  PJ ← for_range 0 (size channels) (λ c PJ,
          for_range 0 n
            (setData_pixel Fx Fy stride inds Jw (channelData channels c) (c * n)%nat)
            PJ)
        (pixels0, jacobians0);
  Some (MkTemplateData (_pyr_level st) (PJ.2 ++ [Jacobian_Zero]) points PJ.1
          (_warp st)).

(** Body of the first loop of [computeResiduals]. *)
Definition computeResiduals_coeffs (w : Warp) (points : list Point)
    (max_rows max_cols : Z) (i : nat)
    (s : list Vector2i * list Z * list Vector4f)
  : option (list Vector2i * list Z * list Vector4f) :=
  let '(uv, valid, interp_coeffs) := s in
  p ← points !! i;
  let x := project w p in
  xi ← cvFloor (rnd (x.1 + (1 # 2))%Q);
  yi ← cvFloor (rnd (x.2 + (1 # 2))%Q);
  uv' ← ptr_write uv i (xi, yi);
  let xf := rnd (x.1 - rnd (inject_Z xi))%Q in
  let yf := rnd (x.2 - rnd (inject_Z yi))%Q in
  valid' ← ptr_write valid i
    (Z.b2z (bool_decide (0 ≤ xi) && bool_decide (xi < max_cols) &&
            bool_decide (0 ≤ yi) && bool_decide (yi < max_rows)));
  coeffs' ← ptr_write interp_coeffs i
    (rnd (rnd (1 - yf) * rnd (1 - xf))%Q, rnd (rnd (1 - yf) * xf)%Q,
     rnd (yf * rnd (1 - xf))%Q, rnd (yf * xf)%Q);
  Some (uv', valid', coeffs').

(** Body of the inner loop of the second pass. *)
Definition computeResiduals_residual (uv : list Vector2i) (valid : list Z)
    (interp_coeffs : list Vector4f) (pixels : list float)
    (I_ptr : list float) (stride : Z) (offset : nat)
    (i : nat) (residuals : list float) : option (list float) :=
  v ← valid !! i;
  if decide (v ≠ 0) then
    xy ← uv !! i;
    let ii := xy.2 * stride + xy.1 in
    cf ← interp_coeffs !! i;
    a ← ptr_read I_ptr ii;
    b ← ptr_read I_ptr (ii + 1);
    c ← ptr_read I_ptr (ii + stride);
    d ← ptr_read I_ptr (ii + stride + 1);
    let Iw := vdot cf (rnd a, rnd b, rnd c, rnd d) in
    I0 ← pixels !! (offset + i)%nat;
    ptr_write residuals (offset + i)%nat (rnd (Iw - I0)%Q)
  else
    ptr_write residuals (offset + i)%nat 0%Q.

Definition computeResiduals_pass1 (st : TemplateData) (channels : Channels)
    (pose : Matrix44) (valid : list Z)
  : option (list Vector2i * list Z * list Vector4f) :=
  let max_rows := rows (channel channels 0) - 1 in
  let max_cols := cols (channel channels 0) - 1 in
  let n := numPoints st in
  for_range 0 n
    (computeResiduals_coeffs (setPose (_warp st) pose) (_points st)
       max_rows max_cols)
    (replicate n (0, 0), resize n 0 valid, replicate n (0, 0, 0, 0)%Q).

Definition computeResiduals (st : TemplateData) (channels : Channels)
    (pose : Matrix44) (residuals : list float) (valid : list Z)
  : option (TemplateData * list float * list Z) :=
  let n := numPoints st in
  s ← computeResiduals_pass1 st channels pose valid;
  let '(uv, valid', interp_coeffs) := s in
  residuals' ← for_range 0 (size channels) (λ c r,
      for_range 0 n
        (computeResiduals_residual uv valid' interp_coeffs (_pixels st)
           (channelData channels c) (cols (channel channels c)) (c * n)%nat)
        r)
    (resize (length (_pixels st)) 0%Q residuals);
  Some (MkTemplateData (_pyr_level st) (_jacobians st) (_points st)
          (_pixels st) (setPose (_warp st) pose),
        residuals', valid').

(** *** Slot values as functions of the slot *)

(** What the first pass computes for a projected coordinate [x]. *)
Definition point_coeffs (max_rows max_cols : Z) (x : float * float)
  : option (Vector2i * Z * Vector4f) :=
  xi ← cvFloor (rnd (x.1 + (1 # 2))%Q);
  yi ← cvFloor (rnd (x.2 + (1 # 2))%Q);
  let xf := rnd (x.1 - rnd (inject_Z xi))%Q in
  let yf := rnd (x.2 - rnd (inject_Z yi))%Q in
  Some ((xi, yi), valid_flag max_rows max_cols (xi, yi),
        (rnd (rnd (1 - yf) * rnd (1 - xf))%Q, rnd (rnd (1 - yf) * xf)%Q,
         rnd (yf * rnd (1 - xf))%Q, rnd (yf * xf)%Q)).

(** What the second pass writes at slot [(c, i)]. *)
Definition residual_at (uv : list Vector2i) (valid : list Z)
    (interp_coeffs : list Vector4f) (pixels : list float) (n : nat)
    (channels : Channels) (c i : nat) : option float :=
  let I_ptr := channelData channels c in
  let stride := cols (channel channels c) in
  v ← valid !! i;
  if decide (v ≠ 0) then
    xy ← uv !! i;
    let ii := xy.2 * stride + xy.1 in
    cf ← interp_coeffs !! i;
    a ← ptr_read I_ptr ii;
    b ← ptr_read I_ptr (ii + 1);
    c' ← ptr_read I_ptr (ii + stride);
    d ← ptr_read I_ptr (ii + stride + 1);
    I0 ← pixels !! (c * n + i)%nat;
    Some (rnd (vdot cf (rnd a, rnd b, rnd c', rnd d) - I0)%Q)
  else Some 0%Q.

(** What the channel and point loops of [setData] write at slot [(c, i)]. *)
Definition extracted_value (Fx Fy : float) (stride : Z)
    (channels : Channels) (inds : list (Z * float)) (Jw : list WarpJacobian)
    (c i : nat) : option (float * Jacobian) :=
  let c_ptr := channelData channels c in
  ind ← inds !! i;
  p ← ptr_read c_ptr ind.1;
  xp ← ptr_read c_ptr (ind.1 + 1);
  xm ← ptr_read c_ptr (ind.1 - 1);
  yp ← ptr_read c_ptr (ind.1 + stride);
  ym ← ptr_read c_ptr (ind.1 - stride);
  jw ← Jw !! i;
  Some (rnd p,
        ImageGradient_mul (rnd (Fx * rnd (rnd xp - rnd xm))%Q,
                           rnd (Fy * rnd (rnd yp - rnd ym))%Q) jw).


End Single.
End Single.

Module Demo.

Record ShiftWarp := MkShiftWarp { sw_K : Matrix33; sw_shift : float * float }.

#[export] Instance ShiftWarp_WarpType : WarpType ShiftWarp := {|
  Point := float * float * float;
  Point_uninit := (0, 0, 0)%Q;
  Jacobian_uninit := [];
  NumParams := 2;
  newWarp Kmat _ := MkShiftWarp Kmat (0, 0)%Q;
  makePoint _ x y d := (inject_Z x, inject_Z y, d);
  warpJacobianAtZero _ _ := ([1; 0]%Q, [0; 1]%Q);
  setPose w T := MkShiftWarp (sw_K w) (T 0 3, T 1 3);
  project w p := ((p.1.1 + (sw_shift w).1)%Q, (p.1.2 + (sw_shift w).2)%Q);
  K := sw_K;
|}.

#[export] Instance Planes_ChannelsType : ChannelsType (list Mat) := {|
  NumChannels := 1;
  size := length;
  channel ch c := default (MkMat 0 0 []) (ch !! c);
  computeSaliencyMap ch := default (MkMat 0 0 []) (ch !! 0%nat);
|}.

#[export] Instance Mat_DisparityType : DisparityType Mat := {|
  is_float_type _ := true;
  DisparityPyramidLevel D level y x :=
    default 0%Q (ptr_read (data D) ((y * 2 ^ level) * cols D + x * 2 ^ level));
  is_valid_depth d := bool_decide (0 < Qnum d);
  is_local_max _ _ _ _ := true;
  MIN_NUM_FOR_PIXEL_PSELECTION := 1000;
|}.

(** [I(y, x) = 8 * y + x]: every pixel holds its own linear index. *)
Definition ramp : Mat := MkMat 8 8 (inject_Z <$> seqZ 0 64).
Definition depth : Mat := MkMat 8 8 (replicate 64 1%Q).
Definition frame : list Mat := [ramp].

Definition Kmat : Matrix33 :=
  λ r c, if decide (r = c) then (if decide (r = 2) then 1%Q else 100%Q) else 0%Q.

(** The pose whose translation entries are [(tx, ty)]. *)
Definition shift_pose (tx ty : float) : Matrix44 :=
  λ r c, if decide (r = c) then 1%Q
         else if decide (c = 3) then
           (if decide (r = 0) then tx else if decide (r = 1) then ty else 0%Q)
         else 0%Q.


Definition empty_store : TemplateData := newTemplateData Kmat (1 # 10) 0.

(** The store after extraction from the ramp frame. *)
Definition populated : TemplateData :=
  default empty_store (setData empty_store frame depth).

(** A pose that shifts every point by a quarter pixel to the right and
    three and a half pixels down, and the outputs of the residual
    evaluation under it. *)
Definition shifted : Matrix44 := shift_pose (1 # 4) (7 # 2).

(** Buffers of a caller that sized them for another template. *)
Definition stale_residuals : list float := replicate 12 5%Q.
Definition stale_valid : list Z := [7].

Definition corner : Point := (2, 2, 1)%Q.

Definition pass1_out : list Vector2i * list Z * list Vector4f :=
  default ([], [], []) (computeResiduals_pass1 populated frame shifted stale_valid).

Definition out : TemplateData * list float * list Z :=
  default (populated, [], [])
    (computeResiduals populated frame shifted stale_residuals stale_valid).

(** A frame of two channels of one size. *)
#[export] Instance Pair_ChannelsType : ChannelsType (Mat * Mat) | 10 := {|
  NumChannels := 2;
  size _ := 2%nat;
  channel ch c := if decide (c = 0%nat) then ch.1 else ch.2;
  computeSaliencyMap ch := ch.1;
|}.

(** The ramp next to a channel of constant intensity, and the store after
    extraction from the two. *)
Definition flat : Mat := MkMat 8 8 (replicate 64 3%Q).
Definition two_planes : Mat * Mat := (ramp, flat).

Definition populated_two : TemplateData :=
  default empty_store (setData empty_store two_planes depth).

(** The two channels as two blocks, the second one first. *)
Definition second_first : list (nat * nat) := [(1, 2); (0, 1)]%nat.

(** A frame too narrow for the scanned window. *)
Definition narrow : Mat := MkMat 5 9 (inject_Z <$> seqZ 0 45).
Definition narrow_frame : list Mat := [narrow].

(** A pose that shifts every point by a quarter pixel to the right and half
    a pixel down, and the residual evaluation of the two channels under
    it. *)
Definition nudged : Matrix44 := shift_pose (1 # 4) (1 # 2).

Definition out_two : TemplateData * list float * list Z :=
  default (populated_two, [], [])
    (computeResiduals populated_two two_planes nudged stale_residuals
       stale_valid).

(** A pose that moves every point one pixel to the right and one down. *)
Definition moved : Matrix44 := shift_pose 1 1.


(** Channels kept in a list: a frame can hold fewer of them than
    [NumChannels]. *)
Record Stack := MkStack { planes : list Mat }.

#[export] Instance Stack_ChannelsType : ChannelsType Stack | 20 := {|
  NumChannels := 2;
  size s := length (planes s);
  channel s c := default (MkMat 0 0 []) (planes s !! c);
  computeSaliencyMap s := default (MkMat 0 0 []) (planes s !! 0%nat);
|}.

(** The store after extraction from two channels, and the residuals of a
    frame that holds the first channel only. *)
Definition both : Stack := MkStack [ramp; flat].
Definition ramp_only : Stack := MkStack [ramp].

Definition populated_stack : TemplateData :=
  default empty_store (setData empty_store both depth).

Definition out_short : TemplateData * list float * list Z :=
  default (populated_stack, [], [])
    (computeResiduals populated_stack ramp_only nudged stale_residuals
       stale_valid).

(** *** Single precision *)

(** The dot product as the packet reduction sums it. *)
Definition dot_packet (w v : Vector4f) : float :=
  let '(w0, w1, w2, w3) := w in
  let '(v0, v1, v2, v3) := v in
  binary32 (binary32 (binary32 (w0 * v0) + binary32 (w2 * v2)) +
            binary32 (binary32 (w1 * v1) + binary32 (w3 * v3))).

(** Intrinsics with the focal lengths [0.1f], and a ramp of slope 3:
    [I(y, x) = 3 * (8 * y + x)]. *)
Definition Kmat_tenth : Matrix33 :=
  λ r c, if decide (r = c)
         then (if decide (r = 2) then 1%Q else binary32 (1 # 10))
         else 0%Q.

Definition steep : Mat := MkMat 8 8 (inject_Z <$> ((λ z, 3 * z) <$> seqZ 0 64)).
Definition steep_frame : list Mat := [steep].

Definition tenth_store : TemplateData := newTemplateData Kmat_tenth (1 # 10) 0.

Definition tenth_populated : TemplateData :=
  default tenth_store (Single.setData binary32 tenth_store steep_frame depth).

(** The residuals of the ramp in single precision, under the pose of a
    quarter and a half pixel and under the pose [(0.1f, 0.2f)]. *)
Definition out_single : TemplateData * list float * list Z :=
  default (populated, [], [])
    (Single.computeResiduals binary32 dot_packet populated frame nudged
       stale_residuals stale_valid).

Definition tilted : Matrix44 := shift_pose (binary32 (1 # 10)) (binary32 (1 # 5)).

Definition out_tilted : TemplateData * list float * list Z :=
  default (populated, [], [])
    (Single.computeResiduals binary32 dot_packet populated frame tilted [] []).


(** A pose that moves the first point to the column [2^23 + 1]. *)
Definition far : Matrix44 := shift_pose 8388607 0.

Definition far_pass1 : list Vector2i * list Z * list Vector4f :=
  default ([], [], [])
    (Single.computeResiduals_pass1 binary32 populated frame far []).

End Demo.

Import Demo.

(** ** Counted loops and pointer accesses *)

Section Loops.
Context {St : Type}.
Implicit Types (body : nat → St → option St) (Inv : nat → St → Prop).

(** Partial correctness: an invariant kept by every defined iteration
    holds when the loop returns. *)
Lemma for_range_post Inv body lo count s s' :
  for_range lo count body s = Some s' →
  Inv lo s →
  (∀ i t t', (lo ≤ i < lo + count)%nat → Inv i t → body i t = Some t' →
             Inv (S i) t') →
  Inv (lo + count)%nat s'.
Proof.
  revert lo s. induction count as [|k IH]; intros lo s Hrun Hlo Hstep.
  - simpl in Hrun. injection Hrun as <-. by rewrite Nat.add_0_r.
  - simpl in Hrun. destruct (body lo s) as [t|] eqn:Hb; [|done].
    simpl in Hrun. replace (lo + S k)%nat with (S lo + k)%nat by lia.
    apply (IH (S lo) t); [done| |].
    + apply (Hstep lo s t); [lia|done|done].
    + intros i u u' Hi. apply Hstep. lia.
Qed.

(** Total correctness: when every iteration is defined under the
    invariant, the loop returns. *)
Lemma for_range_total Inv body lo count s :
  Inv lo s →
  (∀ i t, (lo ≤ i < lo + count)%nat → Inv i t →
          ∃ t', body i t = Some t' ∧ Inv (S i) t') →
  ∃ s', for_range lo count body s = Some s' ∧ Inv (lo + count)%nat s'.
Proof.
  revert lo s. induction count as [|k IH]; intros lo s Hlo Hstep.
  - exists s. by rewrite Nat.add_0_r.
  - destruct (Hstep lo s) as (t & Hb & Ht); [lia|done|].
    destruct (IH (S lo) t) as (s' & Hrun & Hs'); [done| |].
    + intros i u Hi. apply Hstep. lia.
    + exists s'. simpl. rewrite Hb. simpl.
      by replace (lo + S k)%nat with (S lo + k)%nat by lia.
Qed.

(** The two-level loops of the extraction and of the residual pass. *)
Lemma for_range_nested_post (Inv2 : nat → nat → St → Prop)
    (body2 : nat → nat → St → option St) m n s s' :
  for_range 0 m (λ c t, for_range 0 n (body2 c) t) s = Some s' →
  Inv2 0%nat 0%nat s →
  (∀ c i t t', (c < m)%nat → (i < n)%nat → Inv2 c i t →
               body2 c i t = Some t' → Inv2 c (S i) t') →
  (∀ c t, (c < m)%nat → Inv2 c n t → Inv2 (S c) 0%nat t) →
  Inv2 m 0%nat s'.
Proof.
  intros Hrun H0 Hin Hout.
  apply (for_range_post (λ c t, Inv2 c 0%nat t) _ _ _ _ _ Hrun H0).
  intros c t t' Hc Ht Hb. apply Hout; [lia|].
  apply (for_range_post (Inv2 c) _ _ _ _ _ Hb Ht).
  intros i u u' Hi. apply Hin; lia.
Qed.

Lemma for_range_nested_total (Inv2 : nat → nat → St → Prop)
    (body2 : nat → nat → St → option St) m n s :
  Inv2 0%nat 0%nat s →
  (∀ c i t, (c < m)%nat → (i < n)%nat → Inv2 c i t →
            ∃ t', body2 c i t = Some t' ∧ Inv2 c (S i) t') →
  (∀ c t, (c < m)%nat → Inv2 c n t → Inv2 (S c) 0%nat t) →
  ∃ s', for_range 0 m (λ c t, for_range 0 n (body2 c) t) s = Some s' ∧
        Inv2 m 0%nat s'.
Proof.
  intros H0 Hin Hout.
  apply (for_range_total (λ c t, Inv2 c 0%nat t)); [done|].
  intros c t Hc Ht.
  destruct (for_range_total (Inv2 c) (body2 c) 0 n t) as (t' & Hb & Ht');
    [done| |].
  - intros i u Hi. apply Hin; lia.
  - exists t'. split; [done|]. apply Hout; [lia|done].
Qed.
End Loops.

Lemma ptr_write_Some {A} (buf buf' : list A) i v :
  ptr_write buf i v = Some buf' ↔ (i < length buf)%nat ∧ buf' = <[i := v]> buf.
Proof.
  unfold ptr_write. case_decide; split.
  - by intros [= <-].
  - by intros [_ ->].
  - done.
  - intros [? _]. lia.
Qed.

Lemma ptr_write_in_bounds {A} (buf : list A) i v :
  (i < length buf)%nat → ptr_write buf i v = Some (<[i := v]> buf).
Proof. intros Hi. by apply ptr_write_Some. Qed.

Lemma ptr_read_Some {A} (buf : list A) i v :
  ptr_read buf i = Some v ↔ 0 ≤ i ∧ buf !! Z.to_nat i = Some v.
Proof.
  unfold ptr_read. case_decide; split; try done.
  - by intros [_ ?].
  - intros [? _]. lia.
Qed.

Lemma ptr_read_in_bounds {A} (buf : list A) i :
  0 ≤ i < Z.of_nat (length buf) → is_Some (ptr_read buf i).
Proof.
  intros Hi. unfold ptr_read. rewrite decide_True by lia.
  apply lookup_lt_is_Some. lia.
Qed.

(** ** Facts on the pixel selection *)

Section SelectionFacts.
Context `{DisparityType Disparity}.

(** A scan whose step appends the entries of the visited element. *)
Lemma foldl_push_back {A B} (step : list A → B → list A) (f : B → list A)
    (l : list B) (ret : list A) :
  (∀ ret x, step ret x = ret ++ f x) →
  foldl step ret l = ret ++ (l ≫= f).
Proof.
  intros Hstep. revert ret. induction l as [|x l IH]; intros ret; simpl.
  - by rewrite app_nil_r.
  - by rewrite IH, Hstep, <-app_assoc.
Qed.

Lemma fmap_bind_list {A B C} (h : B → C) (g : A → list B) (l : list A) :
  h <$> (l ≫= g) = l ≫= (λ x, h <$> g x).
Proof.
  induction l as [|x l IH]; [done|].
  by rewrite !bind_cons, fmap_app, IH.
Qed.

(** The selection as a row-major enumeration of the scanned window. *)
Lemma getValidPixelsLocations_scan dmap smap nms_radius do_nonmax_supp :
  getValidPixelsLocations dmap smap nms_radius do_nonmax_supp =
  let border := Z.max 2 nms_radius in
  y ← seqZ border (rows smap - border - 1 - border);
  x ← seqZ border (cols smap - border - 1 - border);
  if ValidPixelPredicate dmap smap
       (if do_nonmax_supp then nms_radius else -1) y x
  then [(y * cols smap + x, dmap y x)] else [].
Proof.
  unfold getValidPixelsLocations. cbv zeta.
  set (P := ValidPixelPredicate _ _ _).
  set (xs := seqZ _ (cols smap - _ - 1 - _)).
  rewrite (foldl_push_back _ (λ y, xs ≫= λ x,
             if P y x then [(y * cols smap + x, dmap y x)] else [])); [done|].
  intros ret y.
  rewrite (foldl_push_back _ (λ x,
             if P y x then [(y * cols smap + x, dmap y x)] else [])); [done|].
  intros ret' x. destruct (P y x); [done | by rewrite app_nil_r].
Qed.

(** With suppression disabled the predicate is the depth test alone. *)
Lemma ValidPixelPredicate_no_nms dmap smap nms_radius y x :
  ValidPixelPredicate dmap smap (if false then nms_radius else -1) y x =
  is_valid_depth (dmap y x).
Proof.
  unfold ValidPixelPredicate. rewrite decide_False by lia.
  apply andb_true_r.
Qed.

(** Which pixels are selected, and with which depth. *)
Lemma elem_of_getValidPixelsLocations dmap smap nms_radius do_nonmax_supp idx d :
  (idx, d) ∈ getValidPixelsLocations dmap smap nms_radius do_nonmax_supp ↔
  ∃ y x, Z.max 2 nms_radius ≤ y < rows smap - Z.max 2 nms_radius - 1 ∧
         Z.max 2 nms_radius ≤ x < cols smap - Z.max 2 nms_radius - 1 ∧
         ValidPixelPredicate dmap smap
           (if do_nonmax_supp then nms_radius else -1) y x = true ∧
         idx = y * cols smap + x ∧ d = dmap y x.
Proof.
  rewrite getValidPixelsLocations_scan. cbv zeta.
  rewrite list_elem_of_bind. split.
  - intros (y & Hin & Hy). apply list_elem_of_bind in Hin as (x & Hin & Hx).
    apply elem_of_seqZ in Hy, Hx. exists y, x.
    destruct (ValidPixelPredicate _ _ _ y x); [|by apply elem_of_nil in Hin].
    apply list_elem_of_singleton in Hin. injection Hin as -> ->.
    repeat split; lia.
  - intros (y & x & Hy & Hx & Hv & -> & ->). exists y. split.
    + apply list_elem_of_bind. exists x. rewrite Hv.
      split; [by apply list_elem_of_singleton|]. apply elem_of_seqZ. lia.
    + apply elem_of_seqZ. lia.
Qed.

(** Concatenating sorted buckets that lie in increasing, disjoint
    intervals gives a sorted list. *)
Lemma StronglySorted_bind_buckets (keys : list Z) (g : Z → list Z)
    (lo hi : Z → Z) :
  StronglySorted Z.lt keys →
  (∀ i, i ∈ keys → StronglySorted Z.lt (g i) ∧ ∀ k, k ∈ g i → lo i ≤ k < hi i) →
  (∀ i j, i ∈ keys → j ∈ keys → i < j → hi i ≤ lo j) →
  StronglySorted Z.lt (keys ≫= g).
Proof.
  induction 1 as [|i keys Hs IH Hall]; intros Hg Hord; [constructor|].
  rewrite bind_cons. apply StronglySorted_app_2.
  - intros a b Ha (j & Hb & Hj)%list_elem_of_bind.
    rewrite Forall_forall in Hall.
    assert (i < j) by (by apply Hall).
    pose proof (Hord i j) as Hij.
    destruct (Hg i) as [_ Hi]; [by left|].
    destruct (Hg j) as [_ Hj']; [by right|].
    specialize (Hi a Ha). specialize (Hj' b Hb).
    assert (hi i ≤ lo j) by (apply Hij; [by left|by right|done]). lia.
  - apply Hg. by left.
  - apply IH.
    + intros j Hj. apply Hg. by right.
    + intros j k Hj Hk. apply Hord; by right.
Qed.

Lemma StronglySorted_seqZ m n : StronglySorted Z.lt (seqZ m n).
Proof.
  destruct (decide (0 ≤ n)) as [Hn|Hn].
  - revert m. pattern n. apply natlike_ind; [|clear n Hn|done].
    + intros m. constructor.
    + intros n Hn IH m. rewrite seqZ_cons by lia. constructor.
      * replace (Z.pred (Z.succ n)) with n by lia. apply IH.
      * apply Forall_forall. intros k Hk%elem_of_seqZ. lia.
  - unfold seqZ. replace (Z.to_nat n) with 0%nat by lia. constructor.
Qed.

Lemma StronglySorted_lt_NoDup (l : list Z) : StronglySorted Z.lt l → NoDup l.
Proof.
  induction 1 as [|k l _ IH Hall]; constructor; [|done].
  rewrite Forall_forall in Hall. intros Hk%Hall. lia.
Qed.

(** The linear indices come out strictly increasing: row-major order,
    every pixel at most once. *)
Lemma getValidPixelsLocations_sorted dmap smap nms_radius do_nonmax_supp :
  StronglySorted Z.lt
    (getValidPixelsLocations dmap smap nms_radius do_nonmax_supp).*1.
Proof.
  rewrite getValidPixelsLocations_scan. cbv zeta.
  set (border := Z.max 2 nms_radius).
  set (P := ValidPixelPredicate _ _ _).
  rewrite fmap_bind_list.
  apply (StronglySorted_bind_buckets _ _
           (λ y, y * Z.max 0 (cols smap) + border)
           (λ y, y * Z.max 0 (cols smap) + (Z.max 0 (cols smap) - border - 1))).
  - apply StronglySorted_seqZ.
  - intros y _. rewrite fmap_bind_list. split.
    + apply (StronglySorted_bind_buckets _ _
               (λ x, y * cols smap + x) (λ x, y * cols smap + x + 1)).
      * apply StronglySorted_seqZ.
      * intros x _. destruct (P y x); simpl.
        -- split; [repeat constructor|].
           intros k ->%list_elem_of_singleton. lia.
        -- split; [constructor|]. by intros k ?%elem_of_nil.
      * intros i j _ _ Hij. lia.
    + intros k (x & Hk & Hx%elem_of_seqZ)%list_elem_of_bind.
      destruct (P y x); simpl in Hk.
      * apply list_elem_of_singleton in Hk as ->. lia.
      * by apply elem_of_nil in Hk.
  - intros i j Hi%elem_of_seqZ Hj%elem_of_seqZ Hij.
    subst border. nia.
Qed.
End SelectionFacts.

(** ** The claims on the pixel selection *)

Section SelectionClaims.
Context `{DisparityType Disparity}.

(** C7 (as amended).  With non-maximum suppression disabled, the selection
    is exactly the pixels with a valid depth reading in the scanned window
    [border <= y < rows - border - 1], [border <= x < cols - border - 1]
    with [border = max(2, nms_radius)] (a margin of [border] pixels at the
    top and left, of [border + 1] pixels at the bottom and right), each
    paired with its depth, each once, in row-major order: the linear
    indices are strictly increasing. *)
Theorem getValidPixelsLocations_without_nms dmap smap nms_radius :
  let border := Z.max 2 nms_radius in
  let sel := getValidPixelsLocations dmap smap nms_radius false in
  (∀ idx d, (idx, d) ∈ sel ↔
     ∃ y x, border ≤ y < rows smap - border - 1 ∧
            border ≤ x < cols smap - border - 1 ∧
            is_valid_depth (dmap y x) = true ∧
            idx = y * cols smap + x ∧ d = dmap y x) ∧
  StronglySorted Z.lt sel.*1 ∧
  NoDup sel.
Proof.
  intros border sel. split; [|split].
  - intros idx d. subst sel. rewrite elem_of_getValidPixelsLocations.
    by setoid_rewrite ValidPixelPredicate_no_nms.
  - apply getValidPixelsLocations_sorted.
  - apply (NoDup_fmap_1 fst).
    apply StronglySorted_lt_NoDup, getValidPixelsLocations_sorted.
Qed.
End SelectionClaims.

(** C7 (as stated) fails: on the 8x8 fixture the pixel (5, 5) has a valid
    depth and lies inside a margin of [max(2, 1) = 2] pixels from every
    edge, yet the scan stops before row 5 and column 5. *)
Lemma selection_is_margin_interior_fails :
  ¬ selection_is_margin_interior (Disparity := Mat) (Z.max 2 1)
      (DisparityPyramidLevel Demo.depth 0) Demo.ramp 1.
Proof.
  intros Hsel. destruct (Hsel 5 5) as [_ Hin]; [simpl; lia..|].
  apply elem_of_getValidPixelsLocations in Hin
    as (y & x & Hy & Hx & _ & Hidx & _).
  - simpl in Hy, Hx, Hidx. lia.
  - simpl. repeat split; lia.
Qed.

(** No other width helps: the scanned window is not the interior of a
    margin that is the same on all four sides. *)
Remark selection_window_not_symmetric :
  ¬ ∃ m, selection_is_margin_interior (Disparity := Mat) m
           (DisparityPyramidLevel Demo.depth 0) Demo.ramp 1.
Proof.
  intros [m Hsel].
  destruct (Hsel 2 2) as [Hfirst _]; [simpl; lia..|].
  destruct (Hsel 5 5) as [_ Hlast]; [simpl; lia..|].
  destruct Hfirst as (Hm & _).
  { apply elem_of_getValidPixelsLocations. exists 2, 2. simpl.
    repeat split; lia. }
  simpl in Hm.
  apply elem_of_getValidPixelsLocations in Hlast
    as (y & x & Hy & Hx & _ & Hidx & _).
  - simpl in Hy, Hx, Hidx. lia.
  - simpl. repeat split; lia.
Qed.

(** ** Extraction: what [setData] stores *)

Section SetDataFacts.
Context `{WarpType Warp} `{ChannelsType Channels} `{DisparityType Disparity}.
Implicit Types (st : TemplateData) (ch : Channels) (D : Disparity).

(** The loop over the points is always defined and maps every selected
    pixel to its point. *)
Lemma setData_points_loop (w : Warp) stride (inds : list (Z * float))
    (points0 : list Point) :
  for_range 0 (length inds) (setData_point w stride inds)
    (resize (length inds) Point_uninit points0)
  = Some (point_of w stride <$> inds).
Proof.
  destruct (for_range_total
    (λ k pts, length pts = length inds ∧
              ∀ i, (i < k)%nat → pts !! i = point_of w stride <$> inds !! i)
    (setData_point w stride inds) 0 (length inds)
    (resize (length inds) Point_uninit points0)) as (pts & -> & Hlen & Hpts).
  - split; [apply length_resize | lia].
  - intros i pts Hi [Hlen Hpts].
    destruct (lookup_lt_is_Some_2 inds i) as [ind Hind]; [lia|].
    exists (<[i := point_of w stride ind]> pts). split; [|split].
    + unfold setData_point, point_of, ind2sub. rewrite Hind. simpl.
      apply ptr_write_Some. split; [lia|done].
    + by rewrite length_insert.
    + intros j Hj. destruct (decide (j = i)) as [->|Hne].
      * rewrite list_lookup_insert_eq by lia. by rewrite Hind.
      * rewrite list_lookup_insert_ne by done. apply Hpts. lia.
  - f_equal. apply list_eq. intros i. rewrite list_lookup_fmap.
    destruct (decide (i < length inds)%nat) as [Hi|Hi].
    + apply Hpts. lia.
    + rewrite !lookup_ge_None_2; [done|lia|lia].
Qed.

(** One iteration of the inner loop: the two values it computes and the
    two slots it writes. *)
Lemma setData_pixel_Some Fx Fy stride inds Jw c_ptr offset i PJ PJ' :
  setData_pixel Fx Fy stride inds Jw c_ptr offset i PJ = Some PJ' ↔
  ∃ ind jw p jac,
    inds !! i = Some ind ∧ Jw !! i = Some jw ∧
    ptr_read c_ptr ind.1 = Some p ∧
    steepest_descent_row Fx Fy stride c_ptr ind.1 jw = Some jac ∧
    (offset + i < length PJ.1)%nat ∧ (offset + i < length PJ.2)%nat ∧
    PJ' = (<[(offset + i)%nat := p]> PJ.1, <[(offset + i)%nat := jac]> PJ.2).
Proof.
  unfold setData_pixel, steepest_descent_row. split.
  - intros Hrun.
    destruct (inds !! i) as [ind|]; [|done]. simpl in Hrun.
    destruct (ptr_read c_ptr ind.1) as [p|] eqn:Hp; [|done]. simpl in Hrun.
    destruct (ptr_write PJ.1 _ p) as [P'|] eqn:HP; [|done]. simpl in Hrun.
    destruct (ptr_read c_ptr (ind.1 + 1)) as [xp|] eqn:Hxp; [|done].
    simpl in Hrun.
    destruct (ptr_read c_ptr (ind.1 - 1)) as [xm|] eqn:Hxm; [|done].
    simpl in Hrun.
    destruct (ptr_read c_ptr (ind.1 + stride)) as [yp|] eqn:Hyp; [|done].
    simpl in Hrun.
    destruct (ptr_read c_ptr (ind.1 - stride)) as [ym|] eqn:Hym; [|done].
    simpl in Hrun.
    destruct (Jw !! i) as [jw|]; [|done]. simpl in Hrun.
    destruct (ptr_write PJ.2 _ _) as [J'|] eqn:HJ; [|done]. simpl in Hrun.
    injection Hrun as <-.
    apply ptr_write_Some in HP as [? ->], HJ as [? ->].
    eexists ind, jw, p, _. rewrite Hp, Hxp, Hxm, Hyp, Hym. simpl. done.
  - intros (ind & jw & p & jac & -> & -> & Hp & Hjac & HP & HJ & ->). simpl.
    rewrite Hp. simpl. rewrite (ptr_write_in_bounds _ _ _ HP). simpl.
    destruct (ptr_read c_ptr (ind.1 + 1)) as [xp|]; [|done]. simpl in *.
    destruct (ptr_read c_ptr (ind.1 - 1)) as [xm|]; [|done]. simpl in *.
    destruct (ptr_read c_ptr (ind.1 + stride)) as [yp|]; [|done]. simpl in *.
    destruct (ptr_read c_ptr (ind.1 - stride)) as [ym|]; [|done]. simpl in *.
    injection Hjac as <-.
    by rewrite (ptr_write_in_bounds _ _ _ HJ).
Qed.

Lemma extraction_inv_step Fx Fy stride ch inds Jw LP LJ c k PJ PJ' :
  (k < length inds)%nat →
  extraction_inv Fx Fy stride ch inds Jw LP LJ c k PJ →
  setData_pixel Fx Fy stride inds Jw (channelData ch c) (c * length inds) k PJ
    = Some PJ' →
  extraction_inv Fx Fy stride ch inds Jw LP LJ c (S k) PJ'.
Proof.
  intros Hk (HLP & HLJ & Hslots)
    (ind & jw & p & jac & Hind & Hjw & Hp & Hjac & HP & HJ & ->)%setData_pixel_Some.
  split; [|split]; simpl.
  - by rewrite length_insert.
  - by rewrite length_insert.
  - intros c' i Hci.
    destruct (decide (c' = c ∧ i = k)) as [[-> ->]|Hne].
    + exists ind, jw, p, jac. simpl.
      by rewrite !list_lookup_insert_eq by done.
    + destruct (Hslots c' i) as (ind' & jw' & p' & jac' & ? & ? & ? & ? & ? & ?);
        [lia|].
      exists ind', jw', p', jac'. simpl.
      rewrite !list_lookup_insert_ne by nia. done.
Qed.

Lemma extraction_inv_next Fx Fy stride ch inds Jw LP LJ c PJ :
  extraction_inv Fx Fy stride ch inds Jw LP LJ c (length inds) PJ →
  extraction_inv Fx Fy stride ch inds Jw LP LJ (S c) 0 PJ.
Proof.
  intros (HLP & HLJ & Hslots). split; [done|split; [done|]].
  intros c' i Hci. apply Hslots. lia.
Qed.

(** Every selected pixel lies at least two pixels inside the saliency map,
    so its four gradient neighbours exist. *)
Lemma setData_inds_interior pyr_level ch D ind :
  ind ∈ setData_inds pyr_level ch D →
  ∃ y x, 2 ≤ y < rows (computeSaliencyMap ch) - 3 ∧
         2 ≤ x < cols (computeSaliencyMap ch) - 3 ∧
         ind.1 = y * cols (computeSaliencyMap ch) + x ∧
         ind.2 = DisparityPyramidLevel D pyr_level y x.
Proof.
  destruct ind as [idx d]. unfold setData_inds.
  intros (y & x & Hy & Hx & _ & -> & ->)%elem_of_getValidPixelsLocations.
  exists y, x. simpl. repeat split; lia.
Qed.

(** What a defined call of [setData] leaves in the store. *)
Lemma setData_inv st ch D st' :
  setData st ch D = Some st' →
  let inds := setData_inds (_pyr_level st) ch D in
  let n := length inds in
  let w := _warp st in
  let stride := cols (computeSaliencyMap ch) in
  let Fx := (K w 0%Z 0%Z * (1 # 2))%Q in
  let Fy := (K w 1%Z 1%Z * (1 # 2))%Q in
  is_float_type D = true ∧
  _pyr_level st' = _pyr_level st ∧ _warp st' = w ∧
  _points st' = point_of w stride <$> inds ∧
  length (_pixels st') = (n * NumChannels)%nat ∧
  ∃ J, _jacobians st' = J ++ [Jacobian_Zero] ∧
       length J = (n * NumChannels)%nat ∧
       ∀ c i, (c < size ch)%nat → (i < n)%nat →
         slot_extracted Fx Fy stride ch inds
           (warpJacobianAtZero w <$> (point_of w stride <$> inds))
           (_pixels st', J) c i.
Proof.
  intros Hrun inds n w stride Fx Fy. unfold setData in Hrun.
  destruct (is_float_type D); simpl in Hrun; [|done].
  fold inds in Hrun. rewrite setData_points_loop in Hrun. simpl in Hrun.
  fold w stride Fx Fy in Hrun.
  set (Jw := warpJacobianAtZero w <$> (point_of w stride <$> inds)) in *.
  match type of Hrun with
  | context [for_range 0 (size ch) ?body ?init] =>
      destruct (for_range 0 (size ch) body init) as [PJ|] eqn:Hloop
  end; [|done].
  simpl in Hrun. injection Hrun as <-. simpl.
  rewrite length_fmap in Hloop. fold n in Hloop.
  apply (for_range_nested_post
           (extraction_inv Fx Fy stride ch inds Jw
              (n * NumChannels) (n * NumChannels))
           (λ c, setData_pixel Fx Fy stride inds Jw (channelData ch c) (c * n)))
    in Hloop.
  - destruct Hloop as (HLP & HLJ & Hslots).
    repeat (split; [done|]). exists PJ.2. repeat (split; [done|]).
    intros c i Hc Hi. destruct PJ as [P J]. apply Hslots. lia.
  - split; [apply length_resize|]. split; [apply length_resize|].
    intros c' i Hci. lia.
  - intros c i t t' Hc Hi. by apply extraction_inv_step.
  - intros c t _. apply extraction_inv_next.
Qed.

(** On a floating-point disparity map and well-formed channels [setData]
    is defined: no access leaves its buffer. *)
Lemma setData_total st ch D :
  is_float_type D = true → Channels_wf ch → is_Some (setData st ch D).
Proof.
  intros Hfloat (Hsize & Hrows & Hcols & Hch). unfold setData.
  rewrite Hfloat. simpl.
  set (inds := setData_inds (_pyr_level st) ch D).
  rewrite setData_points_loop. simpl.
  set (w := _warp st). set (stride := cols (computeSaliencyMap ch)).
  set (Fx := (K w 0%Z 0%Z * (1 # 2))%Q). set (Fy := (K w 1%Z 1%Z * (1 # 2))%Q).
  set (Jw := warpJacobianAtZero w <$> (point_of w stride <$> inds)).
  rewrite length_fmap. set (n := length inds).
  destruct (for_range_nested_total
    (extraction_inv Fx Fy stride ch inds Jw (n * NumChannels) (n * NumChannels))
    (λ c, setData_pixel Fx Fy stride inds Jw (channelData ch c) (c * n))
    (size ch) n
    (resize (n * NumChannels) 0%Q (_pixels st),
     resize (n * NumChannels) Jacobian_uninit (_jacobians st)))
    as (PJ & -> & _); [| | |done].
  - split; [apply length_resize|]. split; [apply length_resize|].
    intros c' i Hci. lia.
  - intros c i [P J] Hc Hi Hinv.
    assert (∃ PJ', setData_pixel Fx Fy stride inds Jw (channelData ch c)
                     (c * n) i (P, J) = Some PJ') as [PJ' HPJ'].
    { destruct Hinv as (HLP & HLJ & _). simpl in HLP, HLJ.
      destruct (lookup_lt_is_Some_2 inds i) as [ind Hind]; [done|].
      destruct (lookup_lt_is_Some_2 Jw i) as [jw Hjw].
      { unfold Jw. by rewrite !length_fmap. }
      destruct (setData_inds_interior (_pyr_level st) ch D ind)
        as (y & x & Hy & Hx & Hidx & _).
      { apply list_elem_of_lookup. by exists i. }
      destruct (Hch c Hc) as (Hr & Hc' & Hlen).
      fold stride in Hx, Hidx, Hcols. unfold channelData.
      assert (∀ k, ind.1 - stride ≤ k ≤ ind.1 + stride →
                   is_Some (ptr_read (data (channel ch c)) k)) as Hread.
      { intros k Hk. apply ptr_read_in_bounds. nia. }
      destruct (Hread ind.1) as [p Hp]; [lia|].
      destruct (Hread (ind.1 + 1)) as [xp Hxp]; [lia|].
      destruct (Hread (ind.1 - 1)) as [xm Hxm]; [lia|].
      destruct (Hread (ind.1 + stride)) as [yp Hyp]; [lia|].
      destruct (Hread (ind.1 - stride)) as [ym Hym]; [lia|].
      eexists. apply setData_pixel_Some.
      exists ind, jw, p. eexists. repeat split; try done.
      - unfold steepest_descent_row. rewrite Hxp, Hxm, Hyp, Hym. done.
      - simpl. nia.
      - simpl. nia. }
    exists PJ'. split; [done|]. by eapply extraction_inv_step.
  - intros c t _. apply extraction_inv_next.
Qed.
End SetDataFacts.

(** ** The claims on [setData] *)

Section SetDataClaims.
Context `{WarpType Warp} `{ChannelsType Channels} `{DisparityType Disparity}.
Implicit Types (st : TemplateData) (ch : Channels) (D : Disparity).

(** C5.  After every call of [setData], on whatever store and input, with
    [N] the number of selected pixels: [numPoints() = N],
    [numPixels() = N * NumChannels], the Jacobian array has
    [N * NumChannels + 1] entries and its last entry is the all-zero row. *)
Theorem setData_sizes st ch D st' :
  setData st ch D = Some st' →
  let N := length (setData_inds (_pyr_level st) ch D) in
  numPoints st' = N ∧
  numPixels st' = (N * NumChannels)%nat ∧
  length (_jacobians st') = (N * NumChannels + 1)%nat ∧
  ∃ zero, last (_jacobians st') = Some zero ∧
          length zero = NumParams ∧ Forall (λ v, v = 0%Q) zero.
Proof.
  intros (_ & _ & _ & Hpts & Hpix & J & HJ & HlenJ & _)%setData_inv N.
  unfold numPoints, numPixels. rewrite Hpts, HJ, length_fmap, length_app.
  simpl. repeat split; [done|lia|].
  exists Jacobian_Zero. rewrite last_snoc. unfold Jacobian_Zero.
  split; [done|]. split; [apply length_replicate|].
  apply Forall_forall. by intros v [-> _]%elem_of_replicate.
Qed.

End SetDataClaims.

(** C5 on the fixture: a second extraction on the populated store. *)
Lemma setData_sizes_witness :
  setData populated frame depth = Some populated ∧
  (numPoints populated = 9%nat ∧
   numPixels populated = (9 * 1)%nat ∧
   length (_jacobians populated) = (9 * 1 + 1)%nat ∧
   ∃ zero, last (_jacobians populated) = Some zero ∧
           length zero = 2%nat ∧ Forall (λ v, v = 0%Q) zero).
Proof.
  assert (setData populated frame depth = Some populated) as Hrun
    by (vm_compute; reflexivity).
  split; [exact Hrun|].
  exact (setData_sizes populated frame depth populated Hrun).
Defined.

(** ** Residual evaluation: what [computeResiduals] writes *)

Section ComputeResidualsFacts.
Context `{WarpType Warp} `{ChannelsType Channels} `{DisparityType Disparity}.
Implicit Types (st : TemplateData) (ch : Channels) (pose : Matrix44).

(** The first pass is always defined: it maps every stored point to its
    base cell, its valid flag and its interpolation coefficients. *)
Lemma computeResiduals_pass1_eq st ch pose (valid : list Z) :
  let w := setPose (_warp st) pose in
  let max_rows := rows (channel ch 0) - 1 in
  let max_cols := cols (channel ch 0) - 1 in
  computeResiduals_pass1 st ch pose valid =
  Some ((λ p, base_cell (project w p)) <$> _points st,
        (λ p, valid_flag max_rows max_cols (base_cell (project w p)))
          <$> _points st,
        (λ p, bilinear_coeffs (project w p)) <$> _points st).
Proof.
  intros w max_rows max_cols. unfold computeResiduals_pass1, numPoints.
  fold w max_rows max_cols. set (points := _points st).
  set (n := length points).
  destruct (for_range_total
    (λ k s, length s.1.1 = n ∧ length s.1.2 = n ∧ length s.2 = n ∧
            ∀ i, (i < k)%nat →
              s.1.1 !! i = (λ p, base_cell (project w p)) <$> points !! i ∧
              s.1.2 !! i = (λ p, valid_flag max_rows max_cols
                                   (base_cell (project w p))) <$> points !! i ∧
              s.2 !! i = (λ p, bilinear_coeffs (project w p)) <$> points !! i)
    (computeResiduals_coeffs w points max_rows max_cols) 0 n
    (replicate n (0, 0), resize n 0 valid, replicate n (0, 0, 0, 0)%Q))
    as ([[uv vl] cf] & -> & Huv & Hvl & Hcf & Hall).
  - simpl. rewrite !length_replicate, length_resize. repeat split; lia.
  - intros i [[uv vl] cf] Hi (Huv & Hvl & Hcf & Hall). simpl in *.
    destruct (lookup_lt_is_Some_2 points i) as [p Hp]; [lia|].
    exists (<[i := base_cell (project w p)]> uv,
            <[i := valid_flag max_rows max_cols (base_cell (project w p))]> vl,
            <[i := bilinear_coeffs (project w p)]> cf).
    split.
    + unfold computeResiduals_coeffs. rewrite Hp. simpl.
      rewrite !ptr_write_in_bounds by lia. simpl. reflexivity.
    + simpl. rewrite !length_insert. repeat (split; [done|]).
      intros j Hj. destruct (decide (j = i)) as [->|Hne].
      * rewrite !list_lookup_insert_eq by lia. by rewrite Hp.
      * rewrite !list_lookup_insert_ne by done. apply Hall. lia.
  - simpl in *. f_equal. f_equal; [f_equal|].
    all: apply list_eq; intros i; rewrite list_lookup_fmap.
    all: destruct (decide (i < n)%nat) as [Hi|Hi];
      [by apply Hall | rewrite !lookup_ge_None_2; [done|fold n; lia|lia]].
Qed.

(** One iteration of the inner loop of the second pass, on the arrays the
    first pass produced. *)
Lemma computeResiduals_residual_eq (w : Warp) (points : list Point)
    max_rows max_cols pixels I_ptr stride offset i p residuals :
  points !! i = Some p →
  computeResiduals_residual
    ((λ p, base_cell (project w p)) <$> points)
    ((λ p, valid_flag max_rows max_cols (base_cell (project w p))) <$> points)
    ((λ p, bilinear_coeffs (project w p)) <$> points)
    pixels I_ptr stride offset i residuals =
  val ← residual_value I_ptr stride
           (valid_flag max_rows max_cols (base_cell (project w p)))
           (base_cell (project w p)) (bilinear_coeffs (project w p))
           (pixels !! (offset + i)%nat);
  ptr_write residuals (offset + i) val.
Proof.
  intros Hp. unfold computeResiduals_residual, residual_value.
  rewrite !list_lookup_fmap, Hp.
  cbn [fmap option_fmap option_map mbind option_bind].
  destruct (decide (_ ≠ 0)) as [Hv|Hv]; [|reflexivity].
  set (ii := (base_cell (project w p)).2 * stride + (base_cell (project w p)).1).
  destruct (ptr_read I_ptr ii) as [a|]; [|reflexivity].
  cbn [mbind option_bind].
  destruct (ptr_read I_ptr (ii + 1)) as [b|]; [|reflexivity].
  cbn [mbind option_bind].
  destruct (ptr_read I_ptr (ii + stride)) as [c|]; [|reflexivity].
  cbn [mbind option_bind].
  destruct (ptr_read I_ptr (ii + stride + 1)) as [d|]; [|reflexivity].
  cbn [mbind option_bind].
  destruct (pixels !! _); reflexivity.
Qed.

Lemma residual_inv_step (w : Warp) ch points pixels L c k residuals residuals' :
  (k < length points)%nat →
  residual_inv w ch points pixels L c k residuals →
  computeResiduals_residual
    ((λ p, base_cell (project w p)) <$> points)
    ((λ p, valid_flag (rows (channel ch 0) - 1) (cols (channel ch 0) - 1)
             (base_cell (project w p))) <$> points)
    ((λ p, bilinear_coeffs (project w p)) <$> points)
    pixels (channelData ch c) (cols (channel ch c)) (c * length points) k
    residuals = Some residuals' →
  residual_inv w ch points pixels L c (S k) residuals'.
Proof.
  intros Hk [HL Hslots] Hrun.
  destruct (lookup_lt_is_Some_2 points k) as [p Hp]; [done|].
  rewrite (computeResiduals_residual_eq _ _ _ _ _ _ _ _ _ _ _ Hp) in Hrun.
  destruct (residual_value _ _ _ _ _ _) as [val|] eqn:Hval; [|done].
  simpl in Hrun. apply ptr_write_Some in Hrun as [Hlt ->].
  split; [by rewrite length_insert|].
  intros c' i Hci. destruct (decide (c' = c ∧ i = k)) as [[-> ->]|Hne].
  - exists p, val. by rewrite list_lookup_insert_eq.
  - destruct (Hslots c' i) as (p' & val' & ? & ? & ?); [lia|].
    exists p', val'. by rewrite list_lookup_insert_ne by nia.
Qed.

Lemma residual_inv_next (w : Warp) ch points pixels L c residuals :
  residual_inv w ch points pixels L c (length points) residuals →
  residual_inv w ch points pixels L (S c) 0 residuals.
Proof.
  intros [HL Hslots]. split; [done|]. intros c' i Hci. apply Hslots. lia.
Qed.

(** What a defined call of [computeResiduals] returns. *)
Lemma computeResiduals_inv st ch pose residuals valid st' res val :
  computeResiduals st ch pose residuals valid = Some (st', res, val) →
  let w := setPose (_warp st) pose in
  st' = MkTemplateData (_pyr_level st) (_jacobians st) (_points st)
          (_pixels st) w ∧
  val = (λ p, valid_flag (rows (channel ch 0) - 1) (cols (channel ch 0) - 1)
                (base_cell (project w p))) <$> _points st ∧
  length res = length (_pixels st) ∧
  ∀ c i, (c < size ch)%nat → (i < numPoints st)%nat →
         slot_residual w ch (_points st) (_pixels st) res c i.
Proof.
  intros Hrun w. unfold computeResiduals in Hrun.
  rewrite computeResiduals_pass1_eq in Hrun. simpl in Hrun. fold w in Hrun.
  match type of Hrun with
  | context [for_range 0 (size ch) ?body ?init] =>
      destruct (for_range 0 (size ch) body init) as [r|] eqn:Hloop
  end; [|done].
  simpl in Hrun. injection Hrun as <- <- <-.
  apply (for_range_nested_post
           (residual_inv w ch (_points st) (_pixels st) (length (_pixels st)))
           (λ c, computeResiduals_residual _ _ _ (_pixels st)
                   (channelData ch c) (cols (channel ch c))
                   (c * numPoints st))) in Hloop.
  - destruct Hloop as [HL Hslots]. repeat (split; [done|]).
    intros c i Hc Hi. apply Hslots. unfold numPoints in Hi. lia.
  - split; [apply length_resize|]. intros c' i Hci. lia.
  - intros c i t t' Hc Hi. by apply residual_inv_step.
  - intros c t _. apply residual_inv_next.
Qed.

(** *** Rounding, validity and the interpolation footprint *)





Lemma valid_flag_cases max_rows max_cols (xy : Vector2i) :
  (valid_flag max_rows max_cols xy = 1 ∧
   0 ≤ xy.1 < max_cols ∧ 0 ≤ xy.2 < max_rows) ∨
  (valid_flag max_rows max_cols xy = 0 ∧
   ¬ (0 ≤ xy.1 < max_cols ∧ 0 ≤ xy.2 < max_rows)).
Proof.
  unfold valid_flag.
  repeat case_bool_decide; simpl; [left|right..]; split; (done || lia).
Qed.

(** The four samples of a valid point lie inside a [rows x cols] buffer. *)
Lemma footprint_in_bounds (nrows ncols xi yi : Z) :
  0 ≤ xi < ncols - 1 → 0 ≤ yi < nrows - 1 →
  0 ≤ yi * ncols + xi ∧ yi * ncols + xi + ncols + 1 < nrows * ncols.
Proof. intros Hx Hy. split; nia. Qed.

(** On well-formed channels and a store whose pixel array covers every
    channel, [computeResiduals] is defined: no access leaves its buffer. *)
Lemma computeResiduals_total st ch pose residuals valid :
  Channels_wf ch →
  (size ch * numPoints st ≤ length (_pixels st))%nat →
  is_Some (computeResiduals st ch pose residuals valid).
Proof.
  intros (Hsize & _ & _ & Hch) Hpix. unfold computeResiduals.
  rewrite computeResiduals_pass1_eq. simpl.
  set (w := setPose (_warp st) pose). unfold numPoints in *.
  destruct (for_range_nested_total
    (residual_inv w ch (_points st) (_pixels st) (length (_pixels st)))
    (λ c, computeResiduals_residual
            ((λ p, base_cell (project w p)) <$> _points st)
            ((λ p, valid_flag (rows (channel ch 0) - 1) (cols (channel ch 0) - 1)
                     (base_cell (project w p))) <$> _points st)
            ((λ p, bilinear_coeffs (project w p)) <$> _points st)
            (_pixels st) (channelData ch c) (cols (channel ch c))
            (c * length (_points st)))
    (size ch) (length (_points st))
    (resize (length (_pixels st)) 0%Q residuals))
    as (res & -> & _); [| | |done].
  - split; [apply length_resize|]. intros c' i Hci. lia.
  - intros c i r Hc Hi Hinv.
    assert (is_Some (computeResiduals_residual
            ((λ p, base_cell (project w p)) <$> _points st)
            ((λ p, valid_flag (rows (channel ch 0) - 1) (cols (channel ch 0) - 1)
                     (base_cell (project w p))) <$> _points st)
            ((λ p, bilinear_coeffs (project w p)) <$> _points st)
            (_pixels st) (channelData ch c) (cols (channel ch c))
            (c * length (_points st)) i r)) as [r' Hr'].
    { destruct (lookup_lt_is_Some_2 (_points st) i) as [p Hp]; [done|].
      rewrite (computeResiduals_residual_eq _ _ _ _ _ _ _ _ _ _ _ Hp).
      assert (c * length (_points st) + i < length (_pixels st))%nat as Hslot
        by nia.
      destruct (lookup_lt_is_Some_2 (_pixels st) _ Hslot) as [I0 HI0].
      destruct Hinv as [HL _].
      assert (is_Some (residual_value (channelData ch c) (cols (channel ch c))
        (valid_flag (rows (channel ch 0) - 1) (cols (channel ch 0) - 1)
           (base_cell (project w p)))
        (base_cell (project w p)) (bilinear_coeffs (project w p))
        (_pixels st !! (c * length (_points st) + i)%nat))) as [rv Hrv].
      { unfold residual_value. rewrite HI0.
        destruct (valid_flag_cases (rows (channel ch 0) - 1)
                    (cols (channel ch 0) - 1) (base_cell (project w p)))
          as [(-> & Hx & Hy)|(-> & _)]; [|by rewrite decide_False by lia].
        rewrite decide_True by lia.
        destruct (Hch c Hc) as (Hrows & Hcols & Hlen).
        rewrite <-Hcols in Hx. rewrite <-Hrows in Hy.
        destruct (footprint_in_bounds _ _ _ _ Hx Hy) as [Hlo Hhi].
        set (ii := _.2 * _ + _.1) in *.
        assert (∀ k, ii ≤ k ≤ ii + cols (channel ch c) + 1 →
                     is_Some (ptr_read (channelData ch c) k)) as Hread.
        { intros k Hk. apply ptr_read_in_bounds. unfold channelData. lia. }
        destruct (Hread ii) as [a ->]; [lia|].
        destruct (Hread (ii + 1)) as [b ->]; [lia|].
        destruct (Hread (ii + cols (channel ch c))) as [c' ->]; [lia|].
        destruct (Hread (ii + cols (channel ch c) + 1)) as [d ->]; [lia|].
        by eexists. }
      rewrite Hrv. simpl. rewrite ptr_write_in_bounds by lia. by eexists. }
    exists r'. split; [done|]. by eapply residual_inv_step.
  - intros c t _. apply residual_inv_next.
Qed.
End ComputeResidualsFacts.

(** ** The claims on [computeResiduals] *)

Section ComputeResidualsClaims.
Context `{WarpType Warp} `{ChannelsType Channels} `{DisparityType Disparity}.
Implicit Types (st : TemplateData) (ch : Channels) (pose : Matrix44).


(** C8.  [computeResiduals] leaves the stored points, pixels and Jacobians
    as they were, hence [numPoints()] and [numPixels()] too; of the store it
    only sets the pose of the warp. *)
Theorem computeResiduals_frame st ch pose residuals valid st' res val :
  computeResiduals st ch pose residuals valid = Some (st', res, val) →
  _points st' = _points st ∧ _pixels st' = _pixels st ∧
  _jacobians st' = _jacobians st ∧
  numPoints st' = numPoints st ∧ numPixels st' = numPixels st ∧
  _pyr_level st' = _pyr_level st ∧
  _warp st' = setPose (_warp st) pose.
Proof. by intros (-> & _)%computeResiduals_inv. Qed.

(** C9.  [computeResiduals] sizes the output buffers itself: on return
    [valid] has [numPoints()] entries and [residuals] has [numPixels()]
    entries, whatever their sizes were; on a store filled by [setData] that
    is [N * NumChannels]. *)
Theorem computeResiduals_sizes st ch pose residuals valid st' res val :
  computeResiduals st ch pose residuals valid = Some (st', res, val) →
  length val = numPoints st' ∧
  length res = numPixels st' ∧
  ∀ st0 ch0 (D : Disparity),
    setData st0 ch0 D = Some st →
    length res = (numPoints st' * NumChannels)%nat.
Proof.
  intros (-> & -> & Hlen & _)%computeResiduals_inv.
  unfold numPoints, numPixels. simpl. rewrite length_fmap.
  repeat (split; [done|]).
  intros st0 ch0 D (_ & _ & _ & Hpts & Hpix & _)%setData_inv.
  by rewrite Hlen, Hpix, Hpts, length_fmap.
Qed.

(** C10.  For a point flagged valid, the four sample indices [ii],
    [ii + 1], [ii + stride], [ii + stride + 1], with [ii = yi * stride + xi]
    and [stride = cols], lie in [[0, rows * cols)]: on a channel of the size
    of the first one, whose buffer holds [rows * cols] samples, the
    interpolation reads no sample outside the buffer. *)
Theorem computeResiduals_footprint_in_bounds st ch pose valid uv vl cf i v xi yi c :
  rows (channel ch c) = rows (channel ch 0) →
  cols (channel ch c) = cols (channel ch 0) →
  Z.of_nat (length (channelData ch c)) = rows (channel ch c) * cols (channel ch c) →
  computeResiduals_pass1 st ch pose valid = Some (uv, vl, cf) →
  vl !! i = Some v → v ≠ 0 →
  uv !! i = Some (xi, yi) →
  let stride := cols (channel ch c) in
  let ii := yi * stride + xi in
  let npix := rows (channel ch c) * cols (channel ch c) in
  (0 ≤ ii < npix ∧ 0 ≤ ii + 1 < npix ∧
   0 ≤ ii + stride < npix ∧ 0 ≤ ii + stride + 1 < npix) ∧
  is_Some (ptr_read (channelData ch c) ii) ∧
  is_Some (ptr_read (channelData ch c) (ii + 1)) ∧
  is_Some (ptr_read (channelData ch c) (ii + stride)) ∧
  is_Some (ptr_read (channelData ch c) (ii + stride + 1)).
Proof.
  intros Hrows Hcols Hlen Hpass Hv Hv0 Huv stride ii npix.
  rewrite computeResiduals_pass1_eq in Hpass. simplify_eq.
  rewrite list_lookup_fmap in Hv. rewrite list_lookup_fmap in Huv.
  destruct (_points st !! i) as [p|]; [|done].
  cbn [fmap option_fmap option_map] in Hv, Huv.
  injection Hv as <-.
  assert (base_cell (project (setPose (_warp st) pose) p) = (xi, yi)) as Hcell
    by congruence.
  destruct (valid_flag_cases (rows (channel ch 0) - 1) (cols (channel ch 0) - 1)
              (base_cell (project (setPose (_warp st) pose) p)))
    as [(_ & Hx & Hy)|(Hflag & _)]; [|done].
  rewrite Hcell in Hx, Hy. simpl in Hx, Hy.
  rewrite <-Hcols in Hx. rewrite <-Hrows in Hy.
  destruct (footprint_in_bounds _ _ _ _ Hx Hy) as [Hlo Hhi].
  fold stride ii npix in Hlo, Hhi, Hlen. fold stride in Hx.
  split; [lia|].
  repeat split; apply ptr_read_in_bounds; lia.
Qed.
End ComputeResidualsClaims.

(** ** The identity-pose round trip *)

Section RoundTrip.
Context `{WarpType Warp} `{ChannelsType Channels} `{DisparityType Disparity}.
Implicit Types (st : TemplateData) (ch : Channels) (pose : Matrix44).

Lemma ind2sub_row_major (stride y x : Z) :
  0 ≤ y → 0 ≤ x < stride → ind2sub stride (y * stride + x) = (y, x).
Proof.
  intros Hy Hx. unfold ind2sub. f_equal; symmetry.
  - apply (Z.quot_unique _ _ _ x); [nia|done|lia].
  - apply (Z.rem_unique _ _ y); [nia|done|lia].
Qed.


End RoundTrip.

(** ** The claims on the fixture *)


Lemma populated_extracted : setData empty_store frame depth = Some populated.
Proof. vm_compute. reflexivity. Qed.

Lemma out_computed :
  computeResiduals populated frame shifted stale_residuals stale_valid
  = Some (out.1.1, out.1.2, out.2).
Proof. vm_compute. reflexivity. Qed.

Lemma pass1_out_computed :
  computeResiduals_pass1 populated frame shifted stale_valid
  = Some (pass1_out.1.1, pass1_out.1.2, pass1_out.2).
Proof. vm_compute. reflexivity. Qed.


(** The model run on the fixture: the nine selected pixels, and the flags
    and residuals under the shifted pose.  The top row of points lands at
    (x + 1/4, 5 + 1/2), base row 6; the other two rows land on or below the
    last row and are invalid. *)
Example selection_on_ramp :
  (setData_inds 0 frame depth).*1 = [18; 19; 20; 26; 27; 28; 34; 35; 36].
Proof. vm_compute. reflexivity. Qed.

Example reference_pixels_on_ramp :
  _pixels populated = [18; 19; 20; 26; 27; 28; 34; 35; 36]%Q.
Proof. vm_compute. reflexivity. Qed.

Example flags_under_shift : out.2 = [1; 1; 1; 0; 0; 0; 0; 0; 0].
Proof. vm_compute. reflexivity. Qed.

Example residuals_under_shift :
  Forall2 Qeq out.1.2
    [113 # 4; 113 # 4; 113 # 4; 0; 0; 0; 0; 0; 0]%Q.
Proof. vm_compute. repeat constructor. Qed.

(** The first point is projected to (9/4, 11/2): the base row is 6, the
    nearest one, where the floor of the coordinate is 5, and the weights
    are built from the offsets (1/4, -1/2). *)
Example rounded_base_is_not_floor :
  project (setPose (_warp populated) shifted) corner = (2 + (1 # 4), 2 + (7 # 2))%Q ∧
  Qfloor (2 + (7 # 2)) = 5 ∧
  pass1_out.1.1 !! 0%nat = Some (2, 6) ∧
  Forall2 (λ cf w, Forall2 Qeq [cf.1.1.1; cf.1.1.2; cf.1.2; cf.2] w)
    (take 1 pass1_out.2) [[9 # 8; 3 # 8; - (3 # 8); - (1 # 8)]%Q].
Proof. vm_compute. repeat constructor. Qed.


(** C8 on the fixture. *)
Lemma computeResiduals_frame_witness :
  computeResiduals populated frame shifted stale_residuals stale_valid
    = Some (out.1.1, out.1.2, out.2) ∧
  (_points out.1.1 = _points populated ∧ _pixels out.1.1 = _pixels populated ∧
   _jacobians out.1.1 = _jacobians populated ∧
   numPoints out.1.1 = numPoints populated ∧
   numPixels out.1.1 = numPixels populated ∧
   _pyr_level out.1.1 = _pyr_level populated ∧
   _warp out.1.1 = setPose (_warp populated) shifted).
Proof.
  split; [exact out_computed|].
  exact (computeResiduals_frame populated frame shifted stale_residuals stale_valid
           out.1.1 out.1.2 out.2 out_computed).
Defined.

(** C9 on the fixture: the caller passes twelve residuals and one flag;
    nine of each come back, for nine points on one channel. *)
Lemma computeResiduals_sizes_witness :
  computeResiduals populated frame shifted stale_residuals stale_valid
    = Some (out.1.1, out.1.2, out.2) ∧
  setData empty_store frame depth = Some populated ∧
  length stale_residuals = 12%nat ∧ length stale_valid = 1%nat ∧
  length out.2 = numPoints out.1.1 ∧
  length out.1.2 = numPixels out.1.1 ∧
  length out.1.2 = (numPoints out.1.1 * NumChannels)%nat ∧
  numPoints out.1.1 = 9%nat.
Proof.
  destruct (computeResiduals_sizes populated frame shifted stale_residuals
              stale_valid out.1.1 out.1.2 out.2 out_computed)
    as (Hvalid & Hres & Hfilled).
  split; [exact out_computed|]. split; [exact populated_extracted|].
  split; [reflexivity|]. split; [reflexivity|].
  split; [exact Hvalid|]. split; [exact Hres|].
  split; [exact (Hfilled empty_store frame depth populated_extracted)|].
  reflexivity.
Defined.

(** C10 on the fixture: the first point, base cell (2, 6), reads the
    samples 50, 51, 58 and 59 of the 64. *)
Lemma computeResiduals_footprint_in_bounds_witness :
  rows (channel frame 0) = rows (channel frame 0) ∧
  cols (channel frame 0) = cols (channel frame 0) ∧
  Z.of_nat (length (channelData frame 0)) = 8 * 8 ∧
  computeResiduals_pass1 populated frame shifted stale_valid
    = Some (pass1_out.1.1, pass1_out.1.2, pass1_out.2) ∧
  pass1_out.1.2 !! 0%nat = Some 1 ∧ 1 ≠ 0 ∧
  pass1_out.1.1 !! 0%nat = Some (2, 6) ∧
  ((0 ≤ 6 * 8 + 2 < 8 * 8 ∧ 0 ≤ 6 * 8 + 2 + 1 < 8 * 8 ∧
    0 ≤ 6 * 8 + 2 + 8 < 8 * 8 ∧ 0 ≤ 6 * 8 + 2 + 8 + 1 < 8 * 8) ∧
   is_Some (ptr_read (channelData frame 0) (6 * 8 + 2)) ∧
   is_Some (ptr_read (channelData frame 0) (6 * 8 + 2 + 1)) ∧
   is_Some (ptr_read (channelData frame 0) (6 * 8 + 2 + 8)) ∧
   is_Some (ptr_read (channelData frame 0) (6 * 8 + 2 + 8 + 1))).
Proof.
  assert (Z.of_nat (length (channelData frame 0)) = 8 * 8) as Hlen
    by reflexivity.
  assert (pass1_out.1.2 !! 0%nat = Some 1) as Hv by reflexivity.
  assert (1 ≠ 0) as Hv0 by lia.
  assert (pass1_out.1.1 !! 0%nat = Some (2, 6)) as Huv by reflexivity.
  split; [reflexivity|]. split; [reflexivity|]. split; [exact Hlen|].
  split; [exact pass1_out_computed|].
  split; [exact Hv|]. split; [exact Hv0|]. split; [exact Huv|].
  exact (computeResiduals_footprint_in_bounds populated frame shifted
           stale_valid pass1_out.1.1 pass1_out.1.2 pass1_out.2 0 1 2 6 0
           eq_refl eq_refl Hlen pass1_out_computed Hv Hv0 Huv).
Defined.


(** ** More on counted loops: slot-filling loops and schedules *)

Section MoreLoops.
Context {St : Type}.

(** Loops whose bodies agree on the states an invariant allows agree. *)
Lemma for_range_ext_inv (Inv : nat → St → Prop) (f g : nat → St → option St)
    lo count s :
  Inv lo s →
  (∀ i t, (lo ≤ i < lo + count)%nat → Inv i t → f i t = g i t) →
  (∀ i t t', (lo ≤ i < lo + count)%nat → Inv i t → g i t = Some t' →
             Inv (S i) t') →
  for_range lo count f s = for_range lo count g s.
Proof.
  revert lo s. induction count as [|k IH]; intros lo s Hs Hfg Hstep; [done|].
  simpl. rewrite (Hfg lo s) by (done || lia).
  destruct (g lo s) as [t|] eqn:Hg; [|done]. simpl.
  apply IH.
  - apply (Hstep lo s t); (done || lia).
  - intros i u Hi. apply Hfg. lia.
  - intros i u u' Hi. apply Hstep. lia.
Qed.

Lemma for_range_ext (f g : nat → St → option St) lo count s :
  (∀ i t, (lo ≤ i < lo + count)%nat → f i t = g i t) →
  for_range lo count f s = for_range lo count g s.
Proof.
  intros Hfg. apply (for_range_ext_inv (λ _ _, True)); [done| |done].
  intros i t Hi _. by apply Hfg.
Qed.

(** A loop over two consecutive ranges. *)
Lemma for_range_app (f : nat → St → option St) lo c1 c2 s :
  for_range lo (c1 + c2) f s =
  for_range lo c1 f s ≫= for_range (lo + c1) c2 f.
Proof.
  revert lo s. induction c1 as [|k IH]; intros lo s; simpl.
  - by rewrite Nat.add_0_r.
  - destruct (f lo s) as [t|]; [|done]. simpl.
    rewrite IH. by replace (S lo + k)%nat with (lo + S k)%nat by lia.
Qed.
End MoreLoops.

(** A loop on a pair of states whose two halves do not interact. *)
Lemma for_range_pair {A B} (f : nat → A → option A) (g : nat → B → option B)
    lo count (a : A) (b : B) :
  for_range lo count (λ i ab, a' ← f i ab.1; b' ← g i ab.2; Some (a', b')) (a, b)
  = a' ← for_range lo count f a; b' ← for_range lo count g b; Some (a', b').
Proof.
  revert lo a b. induction count as [|k IH]; intros lo a b; [done|].
  simpl. destruct (f lo a) as [a1|]; [|done]. simpl.
  destruct (g lo b) as [b1|]; simpl.
  - apply IH.
  - by destruct (for_range (S lo) k f a1).
Qed.


Section FillLoops.
Context {V : Type}.
Implicit Types (val : nat → nat → option V) (l : list V).

Lemma fill_body_Some val n c i l l' :
  fill_body val n c i l = Some l' ↔
  ∃ v, val c i = Some v ∧ (c * n + i < length l)%nat ∧
       l' = <[(c * n + i)%nat := v]> l.
Proof.
  unfold fill_body. split.
  - destruct (val c i) as [v|]; [|done]. simpl.
    intros [? ->]%ptr_write_Some. by exists v.
  - intros (v & -> & Hlt & ->). simpl. by apply ptr_write_in_bounds.
Qed.

Lemma fill_inv_init val n b l0 : fill_inv val n b l0 b 0 l0.
Proof.
  split; [done|]. split; [|done].
  intros c' i' [[? ?]|[? ?]]; lia.
Qed.

Lemma fill_inv_step val n b l0 c i l l' :
  (i < n)%nat →
  fill_inv val n b l0 c i l →
  fill_body val n c i l = Some l' →
  fill_inv val n b l0 c (S i) l'.
Proof.
  intros Hi (Hlen & Hfilled & Hframe) (v & Hv & Hlt & ->)%fill_body_Some.
  split; [by rewrite length_insert|]. split.
  - intros c' i' Hvis.
    destruct (decide (c' = c ∧ i' = i)) as [[-> ->]|Hne].
    + rewrite Hv. split; [by eexists|]. by apply list_lookup_insert_eq.
    + assert (visited n b c i c' i') as Hvis'
        by (destruct Hvis as [[? ?]|[? ?]]; [left|right]; lia).
      destruct (Hfilled c' i' Hvis') as [Hsome Hslot]. split; [done|].
      rewrite list_lookup_insert_ne; [done|].
      destruct Hvis' as [[? ?]|[? ?]]; nia.
  - intros k Hk. rewrite list_lookup_insert_ne.
    + apply Hframe. intros c' i' Hvis. apply Hk.
      destruct Hvis as [[? ?]|[? ?]]; [left|right]; lia.
    + intros <-. apply (Hk c i); [right; lia|done].
Qed.

Lemma fill_inv_next val n b l0 c l :
  (b ≤ c)%nat →
  fill_inv val n b l0 c n l → fill_inv val n b l0 (S c) 0 l.
Proof.
  intros Hb (Hlen & Hfilled & Hframe). split; [done|]. split.
  - intros c' i' Hvis. apply Hfilled.
    destruct Hvis as [[? ?]|[? ?]]; [|lia].
    destruct (decide (c' = c)); [right|left]; lia.
  - intros k Hk. apply Hframe. intros c' i' Hvis. apply Hk.
    destruct Hvis as [[? ?]|[? ?]]; left; lia.
Qed.

(** What a defined slot-filling loop over the channels
    [[b, b + count)] leaves: the slots of the block hold their values, the
    others are untouched. *)
Lemma fill_rows_post val n b count l0 l' :
  fill_rows val n b count l0 = Some l' →
  length l' = length l0 ∧
  (∀ c i, (b ≤ c < b + count)%nat → (i < n)%nat →
     is_Some (val c i) ∧ (c * n + i < length l0)%nat ∧
     l' !! (c * n + i)%nat = val c i) ∧
  (∀ k, (∀ c i, (b ≤ c < b + count)%nat → (i < n)%nat → k ≠ (c * n + i)%nat) →
     l' !! k = l0 !! k).
Proof.
  intros Hrun.
  assert (fill_inv val n b l0 (b + count) 0 l') as (Hlen & Hfilled & Hframe).
  { apply (for_range_post (λ c l, (b ≤ c)%nat ∧ fill_inv val n b l0 c 0 l)
             _ _ _ _ _ Hrun).
    - split; [done|]. apply fill_inv_init.
    - intros c l l1 Hc [_ Hinv] Hrow. split; [lia|].
      apply fill_inv_next; [lia|].
      apply (for_range_post (fill_inv val n b l0 c) _ _ _ _ _ Hrow Hinv).
      intros i t t' Hi. apply fill_inv_step. lia. }
  split; [done|]. split.
  - intros c i Hc Hi. destruct (Hfilled c i) as [Hsome Hslot]; [left; lia|].
    split; [done|]. split; [|done].
    rewrite <-Hlen. apply lookup_lt_is_Some. by rewrite Hslot.
  - intros k Hk. apply Hframe. intros c i [[? ?]|[? ?]]; [|lia].
    apply Hk; lia.
Qed.

(** The loop is defined as soon as every value of the block is defined
    and every slot of the block exists. *)
Lemma fill_rows_total val n b count l0 :
  (∀ c i, (b ≤ c < b + count)%nat → (i < n)%nat →
     is_Some (val c i) ∧ (c * n + i < length l0)%nat) →
  is_Some (fill_rows val n b count l0).
Proof.
  intros Hdef.
  destruct (for_range_total (λ c l, (b ≤ c)%nat ∧ fill_inv val n b l0 c 0 l)
              (λ c l, for_range 0 n (fill_body val n c) l) b count l0)
    as (l' & Hrun & _); [| |by exists l'].
  - split; [done|]. apply fill_inv_init.
  - intros c l Hc [_ Hinv].
    destruct (for_range_total (fill_inv val n b l0 c) (fill_body val n c)
                0 n l) as (l1 & Hrow & Hinv1); [done| |].
    + intros i t Hi Ht.
      destruct (Hdef c i) as [[v Hv] Hlt]; [lia..|].
      exists (<[(c * n + i)%nat := v]> t).
      assert (fill_body val n c i t = Some (<[(c * n + i)%nat := v]> t)) as Hb.
      { apply fill_body_Some. exists v. destruct Ht as [-> _]. done. }
      split; [done|]. apply (fill_inv_step val n b l0 c i t); [lia|done|done].
    + exists l1. split; [done|]. split; [lia|].
      apply fill_inv_next; [lia|done].
Qed.

(** Two lists that hold the same values on the slots of a set of channels
    and agree with a common list elsewhere are equal. *)
Lemma fill_result_unique val n (P : nat → Prop) `{!∀ c, Decision (P c)}
    l0 l1 l2 :
  (∀ c i, P c → (i < n)%nat →
     l1 !! (c * n + i)%nat = val c i ∧ l2 !! (c * n + i)%nat = val c i) →
  (∀ k, (∀ c i, P c → (i < n)%nat → k ≠ (c * n + i)%nat) →
     l1 !! k = l0 !! k ∧ l2 !! k = l0 !! k) →
  l1 = l2.
Proof.
  intros Hfilled Hframe. apply list_eq. intros k.
  destruct (decide (0 < n ∧ P (k / n))%nat) as [[Hn HP]|Hno].
  - destruct (Hfilled (k / n)%nat (k mod n)%nat HP) as [H1 H2].
    { apply Nat.mod_upper_bound. lia. }
    replace ((k / n) * n + k mod n)%nat with k in H1, H2
      by (rewrite (Nat.div_mod k n) at 1; lia).
    by rewrite H1, H2.
  - destruct (Hframe k) as [H1 H2]; [|by rewrite H1, H2].
    intros c i Hc Hi ->. apply Hno. split; [lia|].
    replace ((c * n + i) / n)%nat with c; [done|].
    apply (Nat.div_unique _ _ _ i); lia.
Qed.
End FillLoops.

Section Schedules.
Context {V : Type}.
Implicit Types (val : nat → nat → option V) (l : list V)
  (schedule : list (nat * nat)).

Lemma covered_cons r schedule c :
  covered (r :: schedule) c ↔ (r.1 ≤ c < r.2)%nat ∨ covered schedule c.
Proof.
  unfold covered. split.
  - intros (r' & [->|Hin]%elem_of_cons & Hc); [by left|right; by exists r'].
  - intros [Hc|(r' & Hin & Hc)].
    + exists r. split; [by left|done].
    + exists r'. split; [by right|done].
Qed.

Lemma covered_nil c : ¬ covered [] c.
Proof. by intros (r & ?%elem_of_nil & _). Qed.

Lemma covered_dec schedule c : Decision (covered schedule c).
Proof.
  induction schedule as [|r schedule IH].
  - right. apply covered_nil.
  - destruct (decide (r.1 ≤ c < r.2)%nat) as [Hc|Hc].
    + left. apply covered_cons. by left.
    + destruct IH as [Hin|Hout].
      * left. apply covered_cons. by right.
      * right. rewrite covered_cons. tauto.
Qed.

(** Slots of different channels are different. *)
Lemma slot_inj (n c i c' i' : nat) :
  (i < n)%nat → (i' < n)%nat → (c * n + i = c' * n + i')%nat → c = c' ∧ i = i'.
Proof.
  intros Hi Hi' Heq.
  assert (c = c') as ->; [|lia].
  destruct (Nat.lt_trichotomy c c') as [Hlt|[->|Hlt]]; [|done|].
  - assert ((c + 1) * n ≤ c' * n)%nat by (apply Nat.mul_le_mono_r; lia). lia.
  - assert ((c' + 1) * n ≤ c * n)%nat by (apply Nat.mul_le_mono_r; lia). lia.
Qed.

(** What a defined run of a schedule of slot-filling blocks leaves. *)
Lemma parallel_fill_post val n schedule l0 l' :
  parallel_for schedule (λ r, fill_rows val n r.1 (r.2 - r.1)) l0 = Some l' →
  length l' = length l0 ∧
  (∀ c i, covered schedule c → (i < n)%nat →
     is_Some (val c i) ∧ (c * n + i < length l0)%nat ∧
     l' !! (c * n + i)%nat = val c i) ∧
  (∀ k, (∀ c i, covered schedule c → (i < n)%nat → k ≠ (c * n + i)%nat) →
     l' !! k = l0 !! k).
Proof.
  revert l0. induction schedule as [|r schedule IH]; intros l0 Hrun.
  - simpl in Hrun. injection Hrun as <-. split; [done|]. split; [|done].
    intros c i Hc. by apply covered_nil in Hc.
  - simpl in Hrun.
    destruct (fill_rows val n r.1 (r.2 - r.1) l0) as [l1|] eqn:Hblock; [|done].
    simpl in Hrun.
    apply fill_rows_post in Hblock as (Hlen1 & Hfilled1 & Hframe1).
    apply IH in Hrun as (Hlen & Hfilled & Hframe).
    split; [congruence|]. split.
    + intros c i Hc Hi.
      destruct (covered_dec schedule c) as [Hin|Hout].
      * destruct (Hfilled c i Hin Hi) as (? & ? & ?).
        repeat split; [done|lia|done].
      * apply covered_cons in Hc as [Hc|Hc]; [|done].
        destruct (Hfilled1 c i) as (? & ? & Hslot); [lia|done|].
        repeat split; [done..|].
        rewrite Hframe; [done|].
        intros c' i' Hc' Hi' Heq.
        apply slot_inj in Heq as [-> _]; done.
    + intros k Hk. rewrite Hframe, Hframe1; [done| |].
      * intros c i Hc Hi. apply Hk; [|done]. apply covered_cons. left. lia.
      * intros c i Hc Hi. apply Hk; [|done]. apply covered_cons. by right.
Qed.

Lemma parallel_fill_total val n schedule l0 :
  (∀ c i, covered schedule c → (i < n)%nat →
     is_Some (val c i) ∧ (c * n + i < length l0)%nat) →
  is_Some (parallel_for schedule (λ r, fill_rows val n r.1 (r.2 - r.1)) l0).
Proof.
  revert l0. induction schedule as [|r schedule IH]; intros l0 Hdef; [done|].
  simpl.
  destruct (fill_rows_total val n r.1 (r.2 - r.1) l0) as [l1 Hblock].
  { intros c i Hc Hi. apply Hdef; [|done]. apply covered_cons. left. lia. }
  rewrite Hblock. simpl. apply IH.
  apply fill_rows_post in Hblock as (Hlen1 & _).
  intros c i Hc Hi. rewrite Hlen1. apply Hdef; [|done].
  apply covered_cons. by right.
Qed.

(** Two schedules that cover the same channels give the same result:
    the blocks may be cut and ordered at will. *)
Lemma parallel_fill_schedule val n schedule1 schedule2 l0 :
  (∀ c, covered schedule1 c ↔ covered schedule2 c) →
  parallel_for schedule1 (λ r, fill_rows val n r.1 (r.2 - r.1)) l0 =
  parallel_for schedule2 (λ r, fill_rows val n r.1 (r.2 - r.1)) l0.
Proof.
  assert (∀ s1 s2 l1,
    (∀ c, covered s1 c ↔ covered s2 c) →
    parallel_for s1 (λ r, fill_rows val n r.1 (r.2 - r.1)) l0 = Some l1 →
    parallel_for s2 (λ r, fill_rows val n r.1 (r.2 - r.1)) l0 = Some l1)
    as Hone.
  { intros s1 s2 l1 Hcov Hrun1.
    pose proof (parallel_fill_post _ _ _ _ _ Hrun1) as (Hlen1 & Hfilled1 & Hframe1).
    destruct (parallel_fill_total val n s2 l0) as [l2 Hrun2].
    { intros c i Hc Hi. destruct (Hfilled1 c i) as (? & ? & _); [|done..].
      by apply Hcov. }
    rewrite Hrun2. f_equal.
    pose proof (parallel_fill_post _ _ _ _ _ Hrun2) as (Hlen2 & Hfilled2 & Hframe2).
    apply (fill_result_unique val n (covered s2) (H := covered_dec s2) l0).
    - intros c i Hc Hi. split.
      + by apply Hfilled2.
      + apply Hfilled1; [by apply Hcov|done].
    - intros k Hk. split.
      + by apply Hframe2.
      + apply Hframe1. intros c i Hc Hi. apply Hk; [by apply Hcov|done]. }
  intros Hcov.
  destruct (parallel_for schedule1 _ l0) as [l1|] eqn:Hrun1.
  - symmetry. by apply (Hone schedule1 schedule2).
  - destruct (parallel_for schedule2 _ l0) as [l2|] eqn:Hrun2; [|done].
    rewrite (Hone schedule2 schedule1 l2) in Hrun1; [done| |done].
    intros c. symmetry. apply Hcov.
Qed.
End Schedules.

(** ** The channel loops of the extraction as slot-filling loops *)

Section ExtractionLoops.
Context `{WarpType Warp} `{ChannelsType Channels}.
Implicit Types (ch : Channels) (inds : list (Z * Q)) (Jw : list WarpJacobian)
  (sv : nat → Z).

Lemma bind_Some_r {A} (x : option A) : x ≫= Some = x.
Proof. by destruct x. Qed.

(** One iteration of the inner loop writes the two halves of the slot
    value. *)
Lemma setData_pixel_fill Fx Fy sv ch inds Jw c i
    (PJ : list Q * list Jacobian) :
  setData_pixel Fx Fy (sv c) inds Jw (channelData ch c) (c * length inds) i PJ =
  P' ← fill_body (λ c i, fst <$> extracted_value Fx Fy sv ch inds Jw c i)
         (length inds) c i PJ.1;
  J' ← fill_body (λ c i, snd <$> extracted_value Fx Fy sv ch inds Jw c i)
         (length inds) c i PJ.2;
  Some (P', J').
Proof.
  unfold setData_pixel, fill_body, extracted_value, steepest_descent_row.
  destruct (inds !! i) as [ind|]; [|done]. simpl.
  destruct (Jw !! i) as [jw|]; simpl.
  - destruct (ptr_read (channelData ch c) ind.1) as [p|]; [|done]. simpl.
    destruct (ptr_read (channelData ch c) (ind.1 + 1)) as [xp|]; simpl;
      [|by destruct (ptr_write PJ.1 _ p)].
    destruct (ptr_read (channelData ch c) (ind.1 - 1)) as [xm|]; simpl;
      [|by destruct (ptr_write PJ.1 _ p)].
    destruct (ptr_read (channelData ch c) (ind.1 + sv c)) as [yp|]; simpl;
      [|by destruct (ptr_write PJ.1 _ p)].
    destruct (ptr_read (channelData ch c) (ind.1 - sv c)) as [ym|]; simpl;
      [|by destruct (ptr_write PJ.1 _ p)].
    by destruct (ptr_write PJ.1 _ p).
  - destruct (ptr_read (channelData ch c) ind.1) as [p|]; [|done]. simpl.
    destruct (ptr_write PJ.1 _ p); [|done]. simpl.
    destruct (ptr_read (channelData ch c) (ind.1 + 1)) as [xp|]; [|done].
    simpl.
    destruct (ptr_read (channelData ch c) (ind.1 - 1)) as [xm|]; [|done].
    simpl.
    destruct (ptr_read (channelData ch c) (ind.1 + sv c)) as [yp|]; [|done].
    simpl.
    by destruct (ptr_read (channelData ch c) (ind.1 - sv c)) as [ym|].
Qed.

(** The loops over a block of channels fill the pixel array and the
    Jacobian array independently. *)
Lemma channel_loops_fill Fx Fy sv ch inds Jw b count
    (PJ : list Q * list Jacobian) :
  for_range b count (λ c PJ,
      for_range 0 (length inds)
        (setData_pixel Fx Fy (sv c) inds Jw (channelData ch c)
           (c * length inds)) PJ) PJ =
  P' ← fill_rows (λ c i, fst <$> extracted_value Fx Fy sv ch inds Jw c i)
         (length inds) b count PJ.1;
  J' ← fill_rows (λ c i, snd <$> extracted_value Fx Fy sv ch inds Jw c i)
         (length inds) b count PJ.2;
  Some (P', J').
Proof.
  unfold fill_rows. destruct PJ as [P J]. rewrite <-for_range_pair.
  apply for_range_ext. intros c [P1 J1] _.
  rewrite <-for_range_pair.
  apply for_range_ext. intros i PJ1 _. apply setData_pixel_fill.
Qed.

Lemma fill_row_length {V} (val : nat → nat → option V) n c (l l' : list V) :
  for_range 0 n (fill_body val n c) l = Some l' → length l' = length l.
Proof.
  intros Hrun.
  apply (for_range_post (λ _ t, length t = length l) _ _ _ _ _ Hrun); [done|].
  intros i t t' _ Ht (v & _ & _ & ->)%fill_body_Some.
  by rewrite length_insert.
Qed.

Lemma fill_rows_length {V} (val : nat → nat → option V) n b count
    (l l' : list V) :
  fill_rows val n b count l = Some l' → length l' = length l.
Proof. by intros (? & _)%fill_rows_post. Qed.

(** A call of the extractor on a block, when the arrays are not empty. *)
Lemma TemplateDataExtractor_call_fill (w : Warp) Jw inds ch (r : nat * nat)
    (PJ : list Q * list Jacobian) :
  (r.1 ≤ r.2)%nat →
  PJ.1 ≠ [] → PJ.2 ≠ [] →
  let Fx := (K w 0%Z 0%Z * (1 # 2))%Q in
  let Fy := (K w 1%Z 1%Z * (1 # 2))%Q in
  let sv c := cols (channel ch c) in
  TemplateDataExtractor_call w Jw inds ch r PJ =
  P' ← fill_rows (λ c i, fst <$> extracted_value Fx Fy sv ch inds Jw c i)
         (length inds) r.1 (r.2 - r.1) PJ.1;
  J' ← fill_rows (λ c i, snd <$> extracted_value Fx Fy sv ch inds Jw c i)
         (length inds) r.1 (r.2 - r.1) PJ.2;
  Some (P', J').
Proof.
  intros Hr HP HJ Fx Fy sv. rewrite <-channel_loops_fill.
  unfold TemplateDataExtractor_call. fold Fx Fy.
  rewrite decide_False by lia.
  apply (for_range_ext_inv
           (λ _ t, length t.1 = length PJ.1 ∧ length t.2 = length PJ.2)).
  - done.
  - intros c t _ [HlP HlJ]. rewrite decide_False; [done|].
    intros [Ht|Ht]; rewrite Ht in *; simpl in *.
    + by destruct PJ.1.
    + by destruct PJ.2.
  - intros c t t' _ [HlP HlJ] Hrow.
    pose proof (channel_loops_fill Fx Fy sv ch inds Jw c 1 t) as Hone.
    simpl in Hone. rewrite Hrow in Hone. simpl in Hone.
    unfold fill_rows in Hone. simpl in Hone. rewrite !bind_Some_r in Hone.
    destruct (for_range 0 (length inds) (fill_body _ _ c) t.1) as [P1|] eqn:HP1;
      [|done].
    destruct (for_range 0 (length inds) (fill_body _ _ c) t.2) as [J1|] eqn:HJ1;
      [|done].
    simpl in Hone. injection Hone as ->. simpl.
    apply fill_row_length in HP1, HJ1. split; congruence.
Qed.

(** The extractor under a schedule, when the arrays are not empty. *)
Lemma parallel_call_fill (w : Warp) Jw inds ch (schedule : list (nat * nat))
    (P : list Q) (J : list Jacobian) :
  Forall (λ r, (r.1 ≤ r.2)%nat) schedule →
  P ≠ [] → J ≠ [] →
  let Fx := (K w 0%Z 0%Z * (1 # 2))%Q in
  let Fy := (K w 1%Z 1%Z * (1 # 2))%Q in
  let sv c := cols (channel ch c) in
  parallel_for schedule (TemplateDataExtractor_call w Jw inds ch) (P, J) =
  P' ← parallel_for schedule (λ r,
         fill_rows (λ c i, fst <$> extracted_value Fx Fy sv ch inds Jw c i)
           (length inds) r.1 (r.2 - r.1)) P;
  J' ← parallel_for schedule (λ r,
         fill_rows (λ c i, snd <$> extracted_value Fx Fy sv ch inds Jw c i)
           (length inds) r.1 (r.2 - r.1)) J;
  Some (P', J').
Proof.
  intros Hwf HP HJ Fx Fy sv. revert P J HP HJ.
  induction Hwf as [|r schedule Hr Hwf IH]; intros P J HP HJ; [done|].
  simpl. rewrite TemplateDataExtractor_call_fill by done. simpl. fold Fx Fy sv.
  destruct (fill_rows _ _ r.1 _ P) as [P1|] eqn:HP1; [|done]. simpl.
  destruct (fill_rows _ _ r.1 _ J) as [J1|] eqn:HJ1; simpl.
  - apply IH.
    + apply fill_rows_length in HP1. intros ->. by destruct P.
    + apply fill_rows_length in HJ1. intros ->. by destruct J.
  - by destruct (parallel_for schedule _ P1).
Qed.

(** Slot values that agree on the covered channels give the same run. *)
Lemma parallel_fill_ext {V} (val1 val2 : nat → nat → option V) n
    (schedule : list (nat * nat)) (l : list V) :
  (∀ c i, covered schedule c → (i < n)%nat → val1 c i = val2 c i) →
  parallel_for schedule (λ r, fill_rows val1 n r.1 (r.2 - r.1)) l =
  parallel_for schedule (λ r, fill_rows val2 n r.1 (r.2 - r.1)) l.
Proof.
  revert l. induction schedule as [|r schedule IH]; intros l Hval; [done|].
  simpl.
  assert (fill_rows val1 n r.1 (r.2 - r.1) l = fill_rows val2 n r.1 (r.2 - r.1) l)
    as ->.
  { apply for_range_ext. intros c t Hc. apply for_range_ext. intros i u Hi.
    unfold fill_body. rewrite Hval; [done| |lia].
    apply covered_cons. left. lia. }
  destruct (fill_rows val2 n r.1 (r.2 - r.1) l) as [l1|]; [|done]. simpl.
  apply IH. intros c i Hc Hi. apply Hval; [|done]. apply covered_cons. by right.
Qed.
End ExtractionLoops.

(** ** [setData] through its slot values *)

Section SetDataMore.
Context `{WarpType Warp} `{ChannelsType Channels} `{DisparityType Disparity}.
Implicit Types (st : TemplateData) (ch : Channels) (D : Disparity).

(** [setData] with its loops in closed form. *)
Lemma setData_unfold st ch D :
  let inds := setData_inds (_pyr_level st) ch D in
  let n := length inds in
  let w := _warp st in
  let stride := cols (computeSaliencyMap ch) in
  let points := point_of w stride <$> inds in
  let val := extracted_value (K w 0%Z 0%Z * (1 # 2))%Q (K w 1%Z 1%Z * (1 # 2))%Q
               (λ _, stride) ch inds (warpJacobianAtZero w <$> points) in
  setData st ch D =
  if is_float_type D then
    P' ← fill_rows (λ c i, fst <$> val c i) n 0 (size ch)
           (resize (n * NumChannels) 0%Q (_pixels st));
    J' ← fill_rows (λ c i, snd <$> val c i) n 0 (size ch)
           (resize (n * NumChannels) Jacobian_uninit (_jacobians st));
    Some (MkTemplateData (_pyr_level st) (J' ++ [Jacobian_Zero]) points P' w)
  else None.
Proof.
  intros inds n w stride points val. unfold setData.
  destruct (is_float_type D); [|done]. simpl.
  fold inds. rewrite setData_points_loop. simpl. rewrite !length_fmap.
  fold w stride points.
  rewrite (channel_loops_fill _ _ (λ _, stride) ch inds). simpl.
  fold n val.
  destruct (fill_rows _ n 0 (size ch) (resize _ 0%Q _)) as [P'|]; [|done].
  simpl. by destruct (fill_rows _ n 0 (size ch) _) as [J'|].
Qed.

(** A loop that fills whole arrays does not depend on what they held. *)
Lemma fill_rows_whole {V} (val : nat → nat → option V) n count
    (l1 l2 : list V) :
  length l1 = (n * count)%nat → length l2 = (n * count)%nat →
  fill_rows val n 0 count l1 = fill_rows val n 0 count l2.
Proof.
  assert (∀ l1 l2 r1, length l1 = (n * count)%nat →
            length l2 = (n * count)%nat →
            fill_rows val n 0 count l1 = Some r1 →
            fill_rows val n 0 count l2 = Some r1) as Hone.
  { clear l1 l2. intros l1 l2 r1 Hl1 Hl2 Hrun1.
    pose proof (fill_rows_post _ _ _ _ _ _ Hrun1) as (Hlen1 & Hfilled1 & _).
    destruct (fill_rows_total val n 0 count l2) as [r2 Hrun2].
    { intros c i Hc Hi. destruct (Hfilled1 c i Hc Hi) as (? & ? & _).
      split; [done|lia]. }
    rewrite Hrun2. f_equal.
    pose proof (fill_rows_post _ _ _ _ _ _ Hrun2) as (Hlen2 & Hfilled2 & _).
    apply list_eq. intros k.
    destruct (decide (k < n * count)%nat) as [Hk|Hk].
    - assert (0 < n)%nat as Hn by (destruct n; lia).
      assert (k = (k / n) * n + k mod n)%nat as Hslot
        by (rewrite (Nat.div_mod k n) at 1; lia).
      assert (k mod n < n)%nat as Hi by (apply Nat.mod_upper_bound; lia).
      assert (k / n < count)%nat as Hc
        by (apply Nat.Div0.div_lt_upper_bound; lia).
      destruct (Hfilled1 (k / n)%nat (k mod n)%nat) as (_ & _ & Hv1); [lia|done|].
      destruct (Hfilled2 (k / n)%nat (k mod n)%nat) as (_ & _ & Hv2); [lia|done|].
      rewrite Hslot. by rewrite Hv1, Hv2.
    - rewrite !lookup_ge_None_2; [done|lia..]. }
  intros Hl1 Hl2.
  destruct (fill_rows val n 0 count l1) as [r1|] eqn:Hrun1.
  - symmetry. by apply (Hone l1 l2).
  - destruct (fill_rows val n 0 count l2) as [r2|] eqn:Hrun2; [|done].
    by rewrite (Hone l2 l1 r2) in Hrun1.
Qed.

(** With no slot to fill the loops leave the arrays as they are. *)
Lemma fill_rows_no_points {V} (val : nat → nat → option V) b count
    (l : list V) :
  fill_rows val 0 b count l = Some l.
Proof.
  unfold fill_rows. revert b. induction count as [|k IH]; intros b; [done|].
  simpl. apply IH.
Qed.

(** The history of the store does not matter to [setData]. *)
Lemma setData_history st1 st2 ch D :
  size ch = NumChannels →
  _pyr_level st1 = _pyr_level st2 → _warp st1 = _warp st2 →
  setData st1 ch D = setData st2 ch D.
Proof.
  intros Hsize Hlevel Hwarp. rewrite !setData_unfold. cbv zeta.
  rewrite Hlevel, Hwarp, Hsize.
  destruct (is_float_type D); [|done].
  set (n := length (setData_inds (_pyr_level st2) ch D)).
  rewrite (fill_rows_whole _ n NumChannels
             (resize (n * NumChannels) 0%Q (_pixels st1))
             (resize (n * NumChannels) 0%Q (_pixels st2)))
    by apply length_resize.
  rewrite (fill_rows_whole _ n NumChannels
             (resize (n * NumChannels) Jacobian_uninit (_jacobians st1))
             (resize (n * NumChannels) Jacobian_uninit (_jacobians st2)))
    by apply length_resize.
  done.
Qed.
End SetDataMore.

(** ** More on the pixel selection *)

Section SelectionMore.
Context `{DisparityType Disparity}.

Lemma sublist_bind_mono {A B} (f g : A → list B) (l : list A) :
  (∀ x, x ∈ l → f x `sublist_of` g x) → l ≫= f `sublist_of` l ≫= g.
Proof.
  induction l as [|x l IH]; intros Hfg; [done|].
  rewrite !bind_cons. apply sublist_app.
  - apply Hfg. by left.
  - apply IH. intros y Hy. apply Hfg. by right.
Qed.

Lemma length_bind_le {A B} (f : A → list B) (l : list A) (m : nat) :
  (∀ x, x ∈ l → (length (f x) ≤ m)%nat) →
  (length (l ≫= f) ≤ length l * m)%nat.
Proof.
  induction l as [|x l IH]; intros Hf; [done|].
  rewrite bind_cons, length_app. simpl.
  assert (length (f x) ≤ m)%nat by (apply Hf; by left).
  assert (length (l ≫= f) ≤ length l * m)%nat
    by (apply IH; intros y Hy; apply Hf; by right).
  lia.
Qed.

(** An empty window of rows or of columns selects nothing. *)
Lemma getValidPixelsLocations_empty_window dmap smap nms_radius do_nonmax_supp :
  rows smap - Z.max 2 nms_radius - 1 ≤ Z.max 2 nms_radius ∨
  cols smap - Z.max 2 nms_radius - 1 ≤ Z.max 2 nms_radius →
  getValidPixelsLocations dmap smap nms_radius do_nonmax_supp = [].
Proof.
  intros Hsmall. apply elem_of_nil_inv. intros [idx d] Hin.
  apply elem_of_getValidPixelsLocations in Hin as (y & x & Hy & Hx & _). lia.
Qed.

(** X1.  On a map with at most [2 * border + 1] rows or columns, with
    [border = max(2, nms_radius)], the scanned window is empty and nothing is
    selected, whatever the depth and the saliency. *)
Theorem getValidPixelsLocations_small_map dmap smap nms_radius do_nonmax_supp :
  rows smap ≤ 2 * Z.max 2 nms_radius + 1 ∨
  cols smap ≤ 2 * Z.max 2 nms_radius + 1 →
  getValidPixelsLocations dmap smap nms_radius do_nonmax_supp = [].
Proof.
  intros Hsmall. apply getValidPixelsLocations_empty_window. lia.
Qed.

(** X2.  Non-maximum suppression only removes pixels: the selection with
    suppression is a sublist of the selection without it, and each of its
    entries is the linear index of a pixel [(y, x)] of the scanned window,
    paired with its depth, that has a valid depth and, for a positive
    radius, is a local maximum of the saliency. *)
Theorem getValidPixelsLocations_nms_sublist dmap smap nms_radius :
  let border := Z.max 2 nms_radius in
  getValidPixelsLocations dmap smap nms_radius true
    `sublist_of` getValidPixelsLocations dmap smap nms_radius false ∧
  ∀ idx d, (idx, d) ∈ getValidPixelsLocations dmap smap nms_radius true →
    ∃ y x, border ≤ y < rows smap - border - 1 ∧
           border ≤ x < cols smap - border - 1 ∧
           idx = y * cols smap + x ∧ d = dmap y x ∧
           is_valid_depth (dmap y x) = true ∧
           (0 < nms_radius → is_local_max smap nms_radius y x = true).
Proof.
  intros border.
  split.
  - rewrite !getValidPixelsLocations_scan. cbv zeta.
    apply sublist_bind_mono. intros y _.
    apply sublist_bind_mono. intros x _.
    rewrite (ValidPixelPredicate_no_nms dmap smap nms_radius).
    unfold ValidPixelPredicate.
    destruct (is_valid_depth (dmap y x)); simpl; [|reflexivity].
    destruct (decide (0 < nms_radius)); [|reflexivity].
    destruct (is_local_max smap nms_radius y x); [reflexivity|].
    apply sublist_nil_l.
  - intros idx d (y & x & Hy & Hx & Hvalid & -> & ->)%elem_of_getValidPixelsLocations.
    exists y, x. unfold ValidPixelPredicate in Hvalid.
    apply andb_true_iff in Hvalid as [Hdepth Hmax].
    split; [exact Hy|]. split; [exact Hx|].
    repeat split; [done|]. intros Hr. by rewrite decide_True in Hmax.
Qed.

(** X3.  At most one pixel per cell of the scanned window is selected. *)
Theorem getValidPixelsLocations_length dmap smap nms_radius do_nonmax_supp :
  let border := Z.max 2 nms_radius in
  (length (getValidPixelsLocations dmap smap nms_radius do_nonmax_supp)
   ≤ Z.to_nat (rows smap - 2 * border - 1) *
     Z.to_nat (cols smap - 2 * border - 1))%nat.
Proof.
  intros border. rewrite getValidPixelsLocations_scan. cbv zeta. fold border.
  replace (Z.to_nat (rows smap - 2 * border - 1))
    with (length (seqZ border (rows smap - border - 1 - border)))
    by (rewrite length_seqZ; lia).
  apply length_bind_le. intros y _.
  replace (Z.to_nat (cols smap - 2 * border - 1))
    with (length (seqZ border (cols smap - border - 1 - border)) * 1)%nat
    by (rewrite length_seqZ; lia).
  apply length_bind_le. intros x _.
  destruct (ValidPixelPredicate _ _ _ y x); simpl; lia.
Qed.

(** X4.  Around every selected pixel the square of radius [border] lies
    inside the map: the pixels the gradient and the suppression read exist,
    and their linear indices lie in [[0, rows * cols)]. *)
Theorem getValidPixelsLocations_neighbourhood dmap smap nms_radius
    do_nonmax_supp idx d :
  (idx, d) ∈ getValidPixelsLocations dmap smap nms_radius do_nonmax_supp →
  let border := Z.max 2 nms_radius in
  ∃ y x, idx = y * cols smap + x ∧
    ∀ dy dx, - border ≤ dy ≤ border → - border ≤ dx ≤ border →
      0 ≤ y + dy < rows smap ∧ 0 ≤ x + dx < cols smap ∧
      0 ≤ idx + dy * cols smap + dx < rows smap * cols smap.
Proof.
  intros (y & x & Hy & Hx & _ & -> & _)%elem_of_getValidPixelsLocations border.
  exists y, x. split; [done|]. intros dy dx Hdy Hdx. fold border in Hy, Hx.
  assert (0 ≤ y + dy < rows smap) as Hrow by lia.
  assert (0 ≤ x + dx < cols smap) as Hcol by lia.
  assert (0 ≤ (y + dy) * cols smap) by (apply Z.mul_nonneg_nonneg; lia).
  assert ((y + dy) * cols smap ≤ (rows smap - 1) * cols smap)
    by (apply Z.mul_le_mono_nonneg_r; lia).
  replace (y * cols smap + x + dy * cols smap + dx)
    with ((y + dy) * cols smap + (x + dx)) by lia.
  repeat split; lia.
Qed.
End SelectionMore.

(** ** More on [setData] *)

Section SetDataExtras.
Context `{WarpType Warp} `{ChannelsType Channels} `{DisparityType Disparity}.
Implicit Types (st : TemplateData) (ch : Channels) (D : Disparity).

(** X6.  The points are built in the order of the selection: point [i] is
    [makePoint(x, y, depth)] for the column, the row and the depth of the
    [i]-th selected pixel, which lies at least two pixels inside the
    saliency map and has a valid depth. *)
Theorem setData_points_coordinates st ch D st' i p :
  setData st ch D = Some st' →
  _points st' !! i = Some p →
  let smap := computeSaliencyMap ch in
  let dmap := DisparityPyramidLevel D (_pyr_level st) in
  ∃ y x, 2 ≤ y < rows smap - 3 ∧ 2 ≤ x < cols smap - 3 ∧
         is_valid_depth (dmap y x) = true ∧
         setData_inds (_pyr_level st) ch D !! i
           = Some (y * cols smap + x, dmap y x) ∧
         p = makePoint (_warp st) x y (dmap y x).
Proof.
  intros (_ & _ & _ & Hpts & _)%setData_inv Hp smap dmap.
  rewrite Hpts, list_lookup_fmap in Hp.
  destruct (setData_inds (_pyr_level st) ch D !! i) as [[idx d]|] eqn:Hind;
    [|done].
  injection Hp as <-.
  assert ((idx, d) ∈ setData_inds (_pyr_level st) ch D) as Hin
    by (apply list_elem_of_lookup; by exists i).
  unfold setData_inds in Hin.
  apply elem_of_getValidPixelsLocations in Hin
    as (y & x & Hy & Hx & Hvalid & -> & ->).
  fold smap dmap in Hy, Hx, Hvalid |- *.
  exists y, x. unfold ValidPixelPredicate in Hvalid.
  apply andb_true_iff in Hvalid as [Hdepth _].
  repeat split; try done; try lia.
  unfold point_of. cbn [fst snd]. by rewrite ind2sub_row_major by lia.
Qed.

(** X7.  [setData] replaces the store: with as many channels as
    [NumChannels], the result depends on the previous store only through its
    pyramid level and its warp, not through the arrays it held. *)
Theorem setData_replaces_store st1 st2 ch D :
  size ch = NumChannels →
  _pyr_level st1 = _pyr_level st2 → _warp st1 = _warp st2 →
  setData st1 ch D = setData st2 ch D.
Proof. apply setData_history. Qed.

(** X8.  Calling [clear()] or [resize(n)] first changes nothing: [setData]
    on the cleared or resized store is [setData] on the store. *)
Theorem setData_after_clear_or_resize st ch D n :
  size ch = NumChannels →
  setData (TemplateData_clear st) ch D = setData st ch D ∧
  setData (TemplateData_resize st n) ch D = setData st ch D.
Proof. intros Hsize. split; by apply setData_history. Qed.


(** X10.  On a saliency map with at most five rows or five columns no
    pixel is selected, and [setData] on a floating-point disparity map
    leaves no point, no pixel and the zero Jacobian alone, without reading a
    channel. *)
Theorem setData_small_image st ch D :
  rows (computeSaliencyMap ch) ≤ 5 ∨ cols (computeSaliencyMap ch) ≤ 5 →
  is_float_type D = true →
  setData st ch D =
  Some (MkTemplateData (_pyr_level st) [Jacobian_Zero] [] [] (_warp st)).
Proof.
  intros Hsmall Hfloat. rewrite setData_unfold. cbv zeta. rewrite Hfloat.
  assert (setData_inds (_pyr_level st) ch D = []) as ->.
  { unfold setData_inds. apply getValidPixelsLocations_empty_window.
    simpl. lia. }
  simpl. by rewrite !fill_rows_no_points, !resize_0.
Qed.

Lemma ImageGradient_mul_zero (g : Q * Q) (jw : WarpJacobian) :
  (g.1 == 0)%Q → (g.2 == 0)%Q →
  Forall (λ v, (v == 0)%Q) (ImageGradient_mul g jw).
Proof.
  intros Hg1 Hg2. unfold ImageGradient_mul.
  destruct jw as [r0 r1]. simpl. revert r1.
  induction r0 as [|a r0 IH]; intros [|b r1]; simpl; try constructor.
  - rewrite Hg1, Hg2. ring.
  - apply IH.
Qed.

(** X11.  Where the central differences of a channel vanish at a selected
    pixel, the Jacobian stored for it on that channel is the zero row. *)
Theorem setData_flat_patch_zero_jacobian st ch D st' i idx d c xp xm yp ym :
  setData st ch D = Some st' →
  setData_inds (_pyr_level st) ch D !! i = Some (idx, d) →
  (c < size ch)%nat →
  let N := length (setData_inds (_pyr_level st) ch D) in
  let stride := cols (computeSaliencyMap ch) in
  ptr_read (channelData ch c) (idx + 1) = Some xp →
  ptr_read (channelData ch c) (idx - 1) = Some xm →
  ptr_read (channelData ch c) (idx + stride) = Some yp →
  ptr_read (channelData ch c) (idx - stride) = Some ym →
  (xp == xm)%Q → (yp == ym)%Q →
  ∃ jac, _jacobians st' !! (c * N + i)%nat = Some jac ∧
         Forall (λ v, (v == 0)%Q) jac.
Proof.
  intros (_ & _ & _ & _ & _ & J & HJ & HlenJ & Hslots)%setData_inv Hind Hc
    N stride Hxp Hxm Hyp Hym Hx Hy.
  destruct (Hslots c i) as (ind & jw & p & jac & Hind' & _ & _ & Hjac & _ & HJ');
    [done|by eapply lookup_lt_Some|].
  rewrite Hind in Hind'. injection Hind' as <-. simpl in Hjac, HJ'.
  unfold steepest_descent_row in Hjac. fold stride in Hjac.
  rewrite Hxp, Hxm, Hyp, Hym in Hjac. simpl in Hjac. injection Hjac as <-.
  eexists. split.
  - rewrite HJ, lookup_app_l by (apply lookup_lt_is_Some; eauto). exact HJ'.
  - apply ImageGradient_mul_zero; simpl.
    + rewrite Hx. ring.
    + rewrite Hy. ring.
Qed.
End SetDataExtras.

(** ** The extraction with TBB against the sequential one *)

Section Tbb.
Context `{WarpType Warp} `{ChannelsType Channels} `{DisparityType Disparity}.
Implicit Types (st : TemplateData) (ch : Channels) (D : Disparity)
  (schedule : list (nat * nat)).

(** A schedule of empty blocks leaves the arrays alone. *)
Lemma parallel_call_idle (w : Warp) Jw inds ch schedule
    (PJ : list Q * list Jacobian) :
  Forall (λ r, (r.1 ≤ r.2)%nat) schedule →
  (∀ c, ¬ covered schedule c) →
  parallel_for schedule (TemplateDataExtractor_call w Jw inds ch) PJ = Some PJ.
Proof.
  induction 1 as [|r schedule Hr Hwf IH]; intros Hidle; [done|].
  simpl.
  assert (TemplateDataExtractor_call w Jw inds ch r PJ = Some PJ) as ->.
  { unfold TemplateDataExtractor_call. rewrite decide_False by lia.
    replace (r.2 - r.1)%nat with 0%nat; [done|].
    destruct (decide (r.1 < r.2)%nat) as [Hlt|Hge]; [|lia].
    destruct (Hidle r.1). apply covered_cons. left. lia. }
  simpl. apply IH. intros c Hc. apply (Hidle c), covered_cons. by right.
Qed.

Lemma fill_rows_as_schedule {V} (val : nat → nat → option V) n m (l : list V) :
  fill_rows val n 0 m l =
  parallel_for [(0, m)%nat] (λ r, fill_rows val n r.1 (r.2 - r.1)) l.
Proof. simpl. by rewrite Nat.sub_0_r, bind_Some_r. Qed.

Lemma covered_single (m c : nat) : covered [(0, m)%nat] c ↔ (0 ≤ c < m)%nat.
Proof.
  rewrite covered_cons. simpl. split; [|by left].
  intros [?|Hc]; [done|]. by apply covered_nil in Hc.
Qed.

(** X12.  The extraction compiled with TBB computes what the sequential
    extraction computes, however the channels [[0, NumChannels)] are cut
    into blocks [[begin, end)] with [begin <= end] and in whatever order the
    blocks run one after the other, on channels that meet their contract
    and when a pixel is selected. *)
Theorem setData_tbb_eq_setData schedule st ch D :
  Channels_wf ch →
  Forall (λ r, (r.1 ≤ r.2)%nat) schedule →
  covers schedule 0 NumChannels →
  setData_inds (_pyr_level st) ch D ≠ [] →
  setData_tbb schedule st ch D = setData st ch D.
Proof.
  intros (Hsize & _ & Hcols & Hch) Hwf Hcov Hsel.
  unfold setData_tbb, setData.
  destruct (is_float_type D); [|done]. simpl.
  set (inds := setData_inds (_pyr_level st) ch D) in *.
  rewrite setData_points_loop. simpl. rewrite !length_fmap.
  set (w := _warp st). set (stride := cols (computeSaliencyMap ch)) in *.
  set (Jw := warpJacobianAtZero w <$> (point_of w stride <$> inds)).
  set (P0 := resize _ 0%Q _). set (J0 := resize _ Jacobian_uninit _).
  assert (0 < length inds)%nat as Hn by (destruct inds; [done|simpl; lia]).
  f_equal.
  destruct (decide (NumChannels = 0)%nat) as [Hzero|Hpos].
  - rewrite parallel_call_idle.
    + by rewrite Hsize, Hzero.
    + done.
    + intros c Hc%Hcov. lia.
  - rewrite parallel_call_fill.
    2: done.
    2: { intros HP. apply (f_equal length) in HP. unfold P0 in HP.
         rewrite length_resize in HP. simpl in HP. nia. }
    2: { intros HJ. apply (f_equal length) in HJ. unfold J0 in HJ.
         rewrite length_resize in HJ. simpl in HJ. nia. }
    cbv zeta. rewrite (channel_loops_fill _ _ (λ _, stride) ch inds). simpl.
    rewrite !fill_rows_as_schedule.
    set (Fx := (K w 0%Z 0%Z * (1 # 2))%Q). set (Fy := (K w 1%Z 1%Z * (1 # 2))%Q).
    assert (∀ c i, covered schedule c → (i < length inds)%nat →
              extracted_value Fx Fy (λ c, cols (channel ch c)) ch inds Jw c i =
              extracted_value Fx Fy (λ _, stride) ch inds Jw c i) as Hval.
    { intros c i Hc%Hcov _. unfold extracted_value.
      destruct (Hch c) as (_ & -> & _); [lia|]. by rewrite <-Hcols. }
    assert (∀ c, covered schedule c ↔ covered [(0, size ch)%nat] c) as Hsame.
    { intros c. rewrite covered_single, Hsize. apply Hcov. }
    rewrite (parallel_fill_ext _ (λ c i, fst <$> extracted_value Fx Fy
               (λ _, stride) ch inds Jw c i) _ schedule)
      by (intros c i Hc Hi; by rewrite Hval).
    rewrite (parallel_fill_ext _ (λ c i, snd <$> extracted_value Fx Fy
               (λ _, stride) ch inds Jw c i) _ schedule)
      by (intros c i Hc Hi; by rewrite Hval).
    rewrite (parallel_fill_schedule _ _ schedule [(0, size ch)%nat] P0 Hsame).
    by rewrite (parallel_fill_schedule _ _ schedule [(0, size ch)%nat] J0 Hsame).
Qed.
End Tbb.

(** ** More on [computeResiduals] *)

Section ComputeResidualsExtras.
Context `{WarpType Warp} `{ChannelsType Channels} `{DisparityType Disparity}.
Implicit Types (st : TemplateData) (ch : Channels) (pose : Matrix44).

(** [computeResiduals] with its loops in closed form. *)
Lemma computeResiduals_unfold st ch pose residuals valid :
  let w := setPose (_warp st) pose in
  computeResiduals st ch pose residuals valid =
  res ← fill_rows (residual_at w ch (_points st) (_pixels st)) (numPoints st)
          0 (size ch) (resize (length (_pixels st)) 0%Q residuals);
  Some (MkTemplateData (_pyr_level st) (_jacobians st) (_points st)
          (_pixels st) w,
        res,
        (λ p, valid_flag (rows (channel ch 0) - 1) (cols (channel ch 0) - 1)
                (base_cell (project w p))) <$> _points st).
Proof.
  intros w. unfold computeResiduals.
  rewrite computeResiduals_pass1_eq. simpl. fold w.
  unfold fill_rows.
  match goal with
  | |- ?a ≫= _ = ?b ≫= _ => assert (a = b) as ->; [|done]
  end.
  apply for_range_ext. intros c r _.
  apply for_range_ext. intros i t Hi. unfold numPoints in *.
  destruct (lookup_lt_is_Some_2 (_points st) i) as [p Hp]; [lia|].
  rewrite (computeResiduals_residual_eq _ _ _ _ _ _ _ _ _ _ _ Hp).
  unfold fill_body, residual_at. by rewrite Hp.
Qed.

(** X13.  On a store filled by [setData], [computeResiduals] is defined for
    every frame whose channels meet their contract, every pose and every
    pair of buffers: no access leaves its buffer. *)
Theorem computeResiduals_defined_after_setData st0 ch0 (D : Disparity) st ch
    pose residuals valid :
  setData st0 ch0 D = Some st →
  Channels_wf ch →
  is_Some (computeResiduals st ch pose residuals valid).
Proof.
  intros (_ & _ & _ & Hpts & Hpix & _)%setData_inv Hwf.
  apply computeResiduals_total; [done|].
  destruct Hwf as (-> & _). unfold numPoints.
  rewrite Hpix, Hpts, length_fmap. lia.
Qed.

(** X14.  When the channels account for the whole pixel array, the outputs
    do not depend on what the buffers of the caller held, nor on their
    sizes. *)
Theorem computeResiduals_ignores_buffers st ch pose residuals1 valid1
    residuals2 valid2 :
  length (_pixels st) = (numPoints st * size ch)%nat →
  computeResiduals st ch pose residuals1 valid1 =
  computeResiduals st ch pose residuals2 valid2.
Proof.
  intros Hcover. rewrite !computeResiduals_unfold. cbv zeta.
  by rewrite (fill_rows_whole _ _ _
                (resize (length (_pixels st)) 0%Q residuals1)
                (resize (length (_pixels st)) 0%Q residuals2))
    by (rewrite length_resize; done).
Qed.

(** X15.  The residual slots from [channels.size() * N] on are not
    written: they keep what the caller passed, or the 0 that [resize] pads
    with. *)
Theorem computeResiduals_unwritten_slots st ch pose residuals valid st' res
    val k :
  computeResiduals st ch pose residuals valid = Some (st', res, val) →
  (size ch * numPoints st ≤ k)%nat →
  res !! k = resize (length (_pixels st)) 0%Q residuals !! k.
Proof.
  intros Hrun Hk. rewrite computeResiduals_unfold in Hrun. cbv zeta in Hrun.
  destruct (fill_rows _ _ 0 (size ch) _) as [res'|] eqn:Hfill; [|done].
  simpl in Hrun. injection Hrun as _ <- _.
  apply fill_rows_post in Hfill as (_ & _ & Hframe).
  apply Hframe. intros c i Hc Hi. nia.
Qed.

End ComputeResidualsExtras.

Section ComputeResidualsValues.
Context `{WarpType Warp} `{ChannelsType Channels} `{DisparityType Disparity}.
Implicit Types (st : TemplateData) (ch : Channels) (pose : Matrix44).



(** X19.  The pose of an earlier call leaves no trace: after a call with
    [pose], a call with [pose'] gives what it would have given on the store
    before, provided setting a pose on the warp overrides the pose set
    before. *)
Theorem computeResiduals_again st ch pose residuals valid st1 res1 val1 ch'
    pose' residuals' valid' :
  computeResiduals st ch pose residuals valid = Some (st1, res1, val1) →
  setPose (setPose (_warp st) pose) pose' = setPose (_warp st) pose' →
  computeResiduals st1 ch' pose' residuals' valid' =
  computeResiduals st ch' pose' residuals' valid'.
Proof.
  intros (-> & _)%computeResiduals_inv Hset.
  rewrite !computeResiduals_unfold. cbv zeta. unfold numPoints. simpl.
  by rewrite Hset.
Qed.

(** X20.  On a store without points [computeResiduals] reads no sample of
    the frame: it returns an empty [valid] and [residuals] resized to the
    pixel count, whatever the frame holds. *)
Theorem computeResiduals_no_points st ch pose residuals valid :
  numPoints st = 0%nat →
  computeResiduals st ch pose residuals valid =
  Some (MkTemplateData (_pyr_level st) (_jacobians st) [] (_pixels st)
          (setPose (_warp st) pose),
        resize (length (_pixels st)) 0%Q residuals, []).
Proof.
  intros Hn. rewrite computeResiduals_unfold. cbv zeta.
  rewrite Hn, fill_rows_no_points. unfold numPoints in Hn.
  apply nil_length_inv in Hn. by rewrite Hn.
Qed.
End ComputeResidualsValues.

(** ** The further properties on the fixtures *)

Lemma two_planes_wf : Channels_wf two_planes.
Proof.
  split; [reflexivity|]. split; [reflexivity|]. split; [reflexivity|].
  intros c Hc. simpl in Hc.
  destruct c as [|[|c]]; [repeat split..|lia].
Qed.

Lemma populated_two_extracted :
  setData empty_store two_planes depth = Some populated_two.
Proof. vm_compute. reflexivity. Qed.

Lemma out_two_computed :
  computeResiduals populated_two two_planes nudged stale_residuals stale_valid
  = Some (out_two.1.1, out_two.1.2, out_two.2).
Proof. vm_compute. reflexivity. Qed.


Lemma second_first_ordered : Forall (λ r, (r.1 ≤ r.2)%nat) second_first.
Proof. repeat constructor. Qed.

Lemma second_first_covers : covers second_first 0 2.
Proof.
  intros c. unfold second_first. rewrite !covered_cons. simpl. split.
  - intros [?|[?|[]%covered_nil]]; lia.
  - intros Hc. destruct (decide (c = 0%nat)); [right; left|left]; lia.
Qed.

Lemma corner_selected :
  (18, 1%Q) ∈
  getValidPixelsLocations (DisparityPyramidLevel depth 0) ramp 1 false.
Proof. apply (list_elem_of_lookup_2 _ 0%nat). vm_compute. reflexivity. Qed.

Example residuals_under_nudge :
  out_two.2 = replicate 9 1 ∧
  Forall2 Qeq out_two.1.2 (replicate 9 (17 # 4) ++ replicate 9 0)%Q.
Proof. split; [vm_compute; reflexivity|]. vm_compute. repeat constructor. Qed.

(** X1 on a map of five rows. *)
Lemma getValidPixelsLocations_small_map_witness :
  (rows narrow ≤ 2 * Z.max 2 1 + 1 ∨ cols narrow ≤ 2 * Z.max 2 1 + 1) ∧
  getValidPixelsLocations (DisparityPyramidLevel depth 0) narrow 1 false = [].
Proof.
  assert (rows narrow ≤ 2 * Z.max 2 1 + 1 ∨ cols narrow ≤ 2 * Z.max 2 1 + 1)
    as Hsmall by (left; simpl; lia).
  split; [exact Hsmall|].
  exact (getValidPixelsLocations_small_map (DisparityPyramidLevel depth 0)
           narrow 1 false Hsmall).
Defined.

(** X4 on the first pixel selected on the ramp, at row 2 and column 2. *)
Lemma getValidPixelsLocations_neighbourhood_witness :
  (18, 1%Q) ∈
    getValidPixelsLocations (DisparityPyramidLevel depth 0) ramp 1 false ∧
  let border := Z.max 2 1 in
  ∃ y x, 18 = y * cols ramp + x ∧
    ∀ dy dx, - border ≤ dy ≤ border → - border ≤ dx ≤ border →
      0 ≤ y + dy < rows ramp ∧ 0 ≤ x + dx < cols ramp ∧
      0 ≤ 18 + dy * cols ramp + dx < rows ramp * cols ramp.
Proof.
  split; [exact corner_selected|].
  exact (getValidPixelsLocations_neighbourhood (DisparityPyramidLevel depth 0)
           ramp 1 false 18 1%Q corner_selected).
Defined.

(** X6 on the first point of the fixture. *)
Lemma setData_points_coordinates_witness :
  setData empty_store two_planes depth = Some populated_two ∧
  _points populated_two !! 0%nat = Some corner ∧
  let smap := computeSaliencyMap two_planes in
  let dmap := DisparityPyramidLevel depth (_pyr_level empty_store) in
  ∃ y x, 2 ≤ y < rows smap - 3 ∧ 2 ≤ x < cols smap - 3 ∧
         is_valid_depth (dmap y x) = true ∧
         setData_inds (_pyr_level empty_store) two_planes depth !! 0%nat
           = Some (y * cols smap + x, dmap y x) ∧
         corner = makePoint (_warp empty_store) x y (dmap y x).
Proof.
  assert (_points populated_two !! 0%nat = Some corner) as Hp by reflexivity.
  split; [exact populated_two_extracted|]. split; [exact Hp|].
  exact (setData_points_coordinates empty_store two_planes depth populated_two
           0 corner populated_two_extracted Hp).
Defined.

(** X7: extraction into the populated store and into the empty one. *)
Lemma setData_replaces_store_witness :
  size two_planes = 2%nat ∧
  _pyr_level populated_two = _pyr_level empty_store ∧
  _warp populated_two = _warp empty_store ∧
  setData populated_two two_planes depth = setData empty_store two_planes depth.
Proof.
  split; [reflexivity|]. split; [reflexivity|]. split; [reflexivity|].
  exact (setData_replaces_store populated_two empty_store two_planes depth
           eq_refl eq_refl eq_refl).
Defined.

(** X8 on the populated store, cleared or resized to four points. *)
Lemma setData_after_clear_or_resize_witness :
  size two_planes = 2%nat ∧
  setData (TemplateData_clear populated_two) two_planes depth
    = setData populated_two two_planes depth ∧
  setData (TemplateData_resize (Channels := Mat * Mat) populated_two 4)
      two_planes depth
    = setData populated_two two_planes depth.
Proof.
  split; [reflexivity|].
  exact (setData_after_clear_or_resize populated_two two_planes depth 4
           eq_refl).
Defined.


(** X10: the populated store after extraction from the narrow frame. *)
Lemma setData_small_image_witness :
  (rows (computeSaliencyMap narrow_frame) ≤ 5 ∨
   cols (computeSaliencyMap narrow_frame) ≤ 5) ∧
  is_float_type depth = true ∧
  setData populated narrow_frame depth =
  Some (MkTemplateData (_pyr_level populated) [Jacobian_Zero] [] []
          (_warp populated)).
Proof.
  assert (rows (computeSaliencyMap narrow_frame) ≤ 5 ∨
          cols (computeSaliencyMap narrow_frame) ≤ 5) as Hsmall
    by (left; simpl; lia).
  split; [exact Hsmall|]. split; [reflexivity|].
  exact (setData_small_image populated narrow_frame depth Hsmall eq_refl).
Defined.

(** X11 on the channel of constant intensity. *)
Lemma setData_flat_patch_zero_jacobian_witness :
  setData empty_store two_planes depth = Some populated_two ∧
  setData_inds (_pyr_level empty_store) two_planes depth !! 0%nat
    = Some (18, 1%Q) ∧
  (1 < size two_planes)%nat ∧
  let N := length (setData_inds (_pyr_level empty_store) two_planes depth) in
  let stride := cols (computeSaliencyMap two_planes) in
  ptr_read (channelData two_planes 1) (18 + 1) = Some 3%Q ∧
  ptr_read (channelData two_planes 1) (18 - 1) = Some 3%Q ∧
  ptr_read (channelData two_planes 1) (18 + stride) = Some 3%Q ∧
  ptr_read (channelData two_planes 1) (18 - stride) = Some 3%Q ∧
  (3 == 3)%Q ∧
  ∃ jac, _jacobians populated_two !! (1 * N + 0)%nat = Some jac ∧
         Forall (λ v, (v == 0)%Q) jac.
Proof.
  assert (setData_inds (_pyr_level empty_store) two_planes depth !! 0%nat
          = Some (18, 1%Q)) as Hind by reflexivity.
  assert (1 < size two_planes)%nat as Hc by (simpl; lia).
  assert (3 == 3)%Q as Heq by reflexivity.
  split; [exact populated_two_extracted|]. split; [exact Hind|].
  split; [exact Hc|]. split; [reflexivity|]. split; [reflexivity|].
  split; [reflexivity|]. split; [reflexivity|]. split; [exact Heq|].
  exact (setData_flat_patch_zero_jacobian empty_store two_planes depth
           populated_two 0 18 1%Q 1 3%Q 3%Q 3%Q 3%Q populated_two_extracted
           Hind Hc eq_refl eq_refl eq_refl eq_refl Heq Heq).
Defined.

(** X12: the two channels as two blocks, the second one first. *)
Lemma setData_tbb_eq_setData_witness :
  Channels_wf two_planes ∧
  Forall (λ r, (r.1 ≤ r.2)%nat) second_first ∧
  covers second_first 0 2 ∧
  setData_inds (_pyr_level empty_store) two_planes depth ≠ [] ∧
  setData_tbb second_first empty_store two_planes depth
    = setData empty_store two_planes depth.
Proof.
  assert (setData_inds (_pyr_level empty_store) two_planes depth ≠ [])
    as Hsel by (vm_compute; discriminate).
  split; [exact two_planes_wf|]. split; [exact second_first_ordered|].
  split; [exact second_first_covers|]. split; [exact Hsel|].
  exact (setData_tbb_eq_setData second_first empty_store two_planes depth
           two_planes_wf second_first_ordered second_first_covers Hsel).
Defined.

(** X13 on the fixture. *)
Lemma computeResiduals_defined_after_setData_witness :
  setData empty_store two_planes depth = Some populated_two ∧
  Channels_wf two_planes ∧
  is_Some (computeResiduals populated_two two_planes nudged stale_residuals
             stale_valid).
Proof.
  split; [exact populated_two_extracted|]. split; [exact two_planes_wf|].
  exact (computeResiduals_defined_after_setData empty_store two_planes depth
           populated_two two_planes nudged stale_residuals stale_valid
           populated_two_extracted two_planes_wf).
Defined.

(** X14: stale buffers against empty ones. *)
Lemma computeResiduals_ignores_buffers_witness :
  length (_pixels populated_two)
    = (numPoints populated_two * size two_planes)%nat ∧
  computeResiduals populated_two two_planes nudged stale_residuals stale_valid
    = computeResiduals populated_two two_planes nudged [] [].
Proof.
  split; [reflexivity|].
  exact (computeResiduals_ignores_buffers populated_two two_planes nudged
           stale_residuals stale_valid [] [] eq_refl).
Defined.

Lemma out_short_computed :
  computeResiduals populated_stack ramp_only nudged stale_residuals stale_valid
  = Some (out_short.1.1, out_short.1.2, out_short.2).
Proof. vm_compute. reflexivity. Qed.

(** X15 on a frame that holds one channel where the store holds two: of
    the 18 residuals the first 9 are written; slot 10 keeps the 5 that the
    caller passed, slot 15 the 0 of the padding. *)
Lemma computeResiduals_unwritten_slots_witness :
  computeResiduals populated_stack ramp_only nudged stale_residuals stale_valid
    = Some (out_short.1.1, out_short.1.2, out_short.2) ∧
  (size ramp_only * numPoints populated_stack ≤ 10)%nat ∧
  length out_short.1.2 = 18%nat ∧
  stale_residuals !! 10%nat = Some 5%Q ∧
  out_short.1.2 !! 10%nat = Some 5%Q ∧
  out_short.1.2 !! 15%nat = Some 0%Q ∧
  out_short.1.2 !! 10%nat
    = resize (length (_pixels populated_stack)) 0%Q stale_residuals !! 10%nat.
Proof.
  assert (size ramp_only * numPoints populated_stack ≤ 10)%nat as Hk
    by (vm_compute; lia).
  split; [exact out_short_computed|]. split; [exact Hk|].
  split; [reflexivity|]. split; [reflexivity|]. split; [reflexivity|].
  split; [reflexivity|].
  exact (computeResiduals_unwritten_slots populated_stack ramp_only nudged
           stale_residuals stale_valid out_short.1.1 out_short.1.2
           out_short.2 10 out_short_computed Hk).
Defined.


(** X19: a call under the nudged pose, then one under the moved pose. *)
Lemma computeResiduals_again_witness :
  computeResiduals populated_two two_planes nudged stale_residuals stale_valid
    = Some (out_two.1.1, out_two.1.2, out_two.2) ∧
  setPose (setPose (_warp populated_two) nudged) moved
    = setPose (_warp populated_two) moved ∧
  computeResiduals out_two.1.1 two_planes moved out_two.1.2 out_two.2
    = computeResiduals populated_two two_planes moved out_two.1.2 out_two.2.
Proof.
  split; [exact out_two_computed|]. split; [reflexivity|].
  exact (computeResiduals_again populated_two two_planes nudged
           stale_residuals stale_valid out_two.1.1 out_two.1.2 out_two.2
           two_planes moved out_two.1.2 out_two.2 out_two_computed eq_refl).
Defined.

(** X20 on the store as constructed. *)
Lemma computeResiduals_no_points_witness :
  numPoints empty_store = 0%nat ∧
  computeResiduals empty_store two_planes nudged stale_residuals stale_valid =
  Some (MkTemplateData (_pyr_level empty_store) (_jacobians empty_store) []
          (_pixels empty_store) (setPose (_warp empty_store) nudged),
        resize (length (_pixels empty_store)) 0%Q stale_residuals, []).
Proof.
  split; [reflexivity|].
  exact (computeResiduals_no_points empty_store two_planes nudged
           stale_residuals stale_valid eq_refl).
Defined.

(** ** Single precision: the first pass of [computeResiduals] *)

Section SinglePass1.
Context `{WarpType Warp} `{ChannelsType Channels}.
Variable rnd : Q → Q.
Implicit Types (st : TemplateData) (ch : Channels) (pose : Matrix44).

(** One iteration of the first pass writes the three values of the
    point. *)
Lemma Single_coeffs_Some (w : Warp) (points : list Point) max_rows max_cols i
    uv vl cf s' :
  Single.computeResiduals_coeffs rnd w points max_rows max_cols i (uv, vl, cf)
    = Some s' ↔
  ∃ p t, points !! i = Some p ∧
    Single.point_coeffs rnd max_rows max_cols (project w p) = Some t ∧
    (i < length uv)%nat ∧ (i < length vl)%nat ∧ (i < length cf)%nat ∧
    s' = (<[i := t.1.1]> uv, <[i := t.1.2]> vl, <[i := t.2]> cf).
Proof.
  unfold Single.computeResiduals_coeffs, Single.point_coeffs, valid_flag.
  destruct (points !! i) as [p|]; simpl;
    [|split; [intros [=]|intros (? & ? & [=] & _)]].
  destruct (Single.cvFloor (rnd ((project w p).1 + _))) as [xi|] eqn:Hxi; simpl;
    [|split; [intros [=]|intros (? & ? & [= <-] & Ht & _);
                         rewrite Hxi in Ht; discriminate]].
  destruct (Single.cvFloor (rnd ((project w p).2 + _))) as [yi|] eqn:Hyi; simpl;
    [|split; [intros [=]|intros (? & ? & [= <-] & Ht & _);
                         rewrite Hxi, Hyi in Ht; discriminate]].
  split.
  - intros Hrun.
    destruct (ptr_write uv i _) as [uv'|] eqn:Huv; [|done]. simpl in Hrun.
    destruct (ptr_write vl i _) as [vl'|] eqn:Hvl; [|done]. simpl in Hrun.
    destruct (ptr_write cf i _) as [cf'|] eqn:Hcf; [|done]. simpl in Hrun.
    injection Hrun as <-.
    apply ptr_write_Some in Huv as [? ->], Hvl as [? ->], Hcf as [? ->].
    eexists p, _. split; [done|]. split; [rewrite Hxi, Hyi; reflexivity|].
    repeat (split; [done|]). reflexivity.
  - intros (p' & t & [= <-] & Ht & Huv & Hvl & Hcf & ->).
    rewrite Hxi, Hyi in Ht. simpl in Ht. injection Ht as <-. simpl.
    by rewrite !ptr_write_in_bounds by done.
Qed.

(** What a defined first pass leaves in its three arrays. *)
Lemma Single_pass1_post st ch pose (valid : list Z) uv vl cf :
  Single.computeResiduals_pass1 rnd st ch pose valid = Some (uv, vl, cf) →
  let w := setPose (_warp st) pose in
  let max_rows := rows (channel ch 0) - 1 in
  let max_cols := cols (channel ch 0) - 1 in
  length uv = numPoints st ∧ length vl = numPoints st ∧
  length cf = numPoints st ∧
  ∀ i p, _points st !! i = Some p →
    ∃ t, Single.point_coeffs rnd max_rows max_cols (project w p) = Some t ∧
         uv !! i = Some t.1.1 ∧ vl !! i = Some t.1.2 ∧ cf !! i = Some t.2.
Proof.
  intros Hrun w max_rows max_cols. unfold Single.computeResiduals_pass1 in Hrun.
  fold w max_rows max_cols in Hrun. set (n := numPoints st) in *.
  pose proof (for_range_post
    (λ k s, length s.1.1 = n ∧ length s.1.2 = n ∧ length s.2 = n ∧
            ∀ i p, (i < k)%nat → _points st !! i = Some p →
              ∃ t, Single.point_coeffs rnd max_rows max_cols (project w p)
                     = Some t ∧
                   s.1.1 !! i = Some t.1.1 ∧ s.1.2 !! i = Some t.1.2 ∧
                   s.2 !! i = Some t.2)
    _ _ _ _ _ Hrun) as Hpost.
  destruct Hpost as (Huv & Hvl & Hcf & Hall).
  - simpl. rewrite !length_replicate, length_resize. repeat split; lia.
  - intros i [[uv1 vl1] cf1] s' Hi (Huv & Hvl & Hcf & Hall).
    intros (p & t & Hp & Ht & _ & _ & _ & ->)%Single_coeffs_Some.
    simpl in *. rewrite !length_insert. repeat (split; [done|]).
    intros j q Hj Hq. destruct (decide (j = i)) as [->|Hne].
    + rewrite Hp in Hq. injection Hq as <-. exists t.
      by rewrite !list_lookup_insert_eq by lia.
    + rewrite !list_lookup_insert_ne by done. apply Hall; [lia|done].
  - simpl in *. repeat (split; [done|]). intros i p Hp. apply Hall; [|done].
    apply lookup_lt_Some in Hp. unfold n, numPoints. lia.
Qed.

(** The first pass is defined when every projected coordinate has a base
    cell in the range of [int]. *)
Lemma Single_pass1_total st ch pose (valid : list Z) :
  let w := setPose (_warp st) pose in
  (∀ p, p ∈ _points st →
     is_Some (Single.cvFloor (rnd ((project w p).1 + (1 # 2)))) ∧
     is_Some (Single.cvFloor (rnd ((project w p).2 + (1 # 2))))) →
  is_Some (Single.computeResiduals_pass1 rnd st ch pose valid).
Proof.
  intros w Hrange. unfold Single.computeResiduals_pass1. fold w.
  set (n := numPoints st).
  destruct (for_range_total
    (λ k s, length s.1.1 = n ∧ length s.1.2 = n ∧ length s.2 = n)
    (Single.computeResiduals_coeffs rnd w (_points st)
       (rows (channel ch 0) - 1) (cols (channel ch 0) - 1)) 0 n
    (replicate n (0, 0), resize n 0 valid, replicate n (0, 0, 0, 0)%Q))
    as (s' & -> & _); [| |done].
  - simpl. by rewrite !length_replicate, length_resize.
  - intros i [[uv vl] cf] Hi (Huv & Hvl & Hcf). simpl in *.
    destruct (lookup_lt_is_Some_2 (_points st) i) as [p Hp];
      [unfold n, numPoints in Hi; lia|].
    destruct (Hrange p) as [[xi Hxi] [yi Hyi]]; [by eapply list_elem_of_lookup_2|].
    eexists. split.
    + apply Single_coeffs_Some. eexists p, _. split; [done|].
      split; [unfold Single.point_coeffs; rewrite Hxi, Hyi; reflexivity|].
      repeat split; lia.
    + simpl. by rewrite !length_insert.
Qed.
End SinglePass1.

(** ** Single precision: what [computeResiduals] writes *)

Section SingleResiduals.
Context `{WarpType Warp} `{ChannelsType Channels}.
Variable rnd : Q → Q.
Variable vdot : Vector4f → Vector4f → Q.
Implicit Types (st : TemplateData) (ch : Channels) (pose : Matrix44).

(** One iteration of the second pass fills one slot. *)
Lemma Single_residual_fill uv vl cf (pixels : list Q) n ch c i
    (residuals : list Q) :
  Single.computeResiduals_residual rnd vdot uv vl cf pixels (channelData ch c)
    (cols (channel ch c)) (c * n) i residuals =
  fill_body (Single.residual_at rnd vdot uv vl cf pixels n ch) n c i residuals.
Proof.
  unfold Single.computeResiduals_residual, fill_body, Single.residual_at.
  destruct (vl !! i) as [v|]; [|done]. simpl.
  destruct (decide (v ≠ 0)); [|done].
  destruct (uv !! i) as [xy|]; [|done]. simpl.
  destruct (cf !! i) as [w|]; [|done]. simpl.
  set (ii := xy.2 * cols (channel ch c) + xy.1).
  destruct (ptr_read _ ii) as [a|]; [|done]. simpl.
  destruct (ptr_read _ (ii + 1)) as [b|]; [|done]. simpl.
  destruct (ptr_read _ (ii + cols (channel ch c))) as [c'|]; [|done]. simpl.
  destruct (ptr_read _ (ii + cols (channel ch c) + 1)) as [d|]; [|done]. simpl.
  by destruct (pixels !! _) as [I0|].
Qed.

(** What a defined call leaves: the store with the new pose, the arrays of
    the first pass, and in every slot the value of the second pass. *)
Lemma Single_computeResiduals_post st ch pose residuals valid st' res val :
  Single.computeResiduals rnd vdot st ch pose residuals valid
    = Some (st', res, val) →
  ∃ uv cf,
    Single.computeResiduals_pass1 rnd st ch pose valid = Some (uv, val, cf) ∧
    st' = MkTemplateData (_pyr_level st) (_jacobians st) (_points st)
            (_pixels st) (setPose (_warp st) pose) ∧
    length res = length (_pixels st) ∧
    ∀ c i, (c < size ch)%nat → (i < numPoints st)%nat →
      ∃ r, Single.residual_at rnd vdot uv val cf (_pixels st) (numPoints st)
             ch c i = Some r ∧
           res !! (c * numPoints st + i)%nat = Some r.
Proof.
  unfold Single.computeResiduals. intros Hrun.
  destruct (Single.computeResiduals_pass1 rnd st ch pose valid)
    as [[[uv vl] cf]|]; [|done].
  simpl in Hrun.
  match type of Hrun with
  | context [for_range 0 (size ch) ?body ?init] =>
      assert (for_range 0 (size ch) body init =
              fill_rows (Single.residual_at rnd vdot uv vl cf (_pixels st)
                           (numPoints st) ch) (numPoints st) 0 (size ch) init)
        as Hfill
  end.
  { apply for_range_ext. intros c r _. apply for_range_ext. intros i t _.
    apply Single_residual_fill. }
  rewrite Hfill in Hrun. clear Hfill.
  destruct (fill_rows _ _ 0 (size ch) _) as [res'|] eqn:Hloop; [|done].
  simpl in Hrun. injection Hrun as <- <- <-.
  apply fill_rows_post in Hloop as (Hlen & Hfilled & _).
  exists uv, cf. split; [done|]. split; [done|].
  split; [by rewrite Hlen, length_resize|].
  intros c i Hc Hi. destruct (Hfilled c i) as ([r Hr] & _ & Hslot); [lia|done|].
  exists r. by rewrite Hslot.
Qed.
End SingleResiduals.

Section SingleResidualsClaims.
Context `{WarpType Warp} `{ChannelsType Channels}.
Variable rnd : Q → Q.
Variable vdot : Vector4f → Vector4f → Q.
Implicit Types (st : TemplateData) (ch : Channels) (pose : Matrix44).

(** C1.  In single precision, for every point [i] flagged valid and every
    channel [c], the residual written at slot [c * N + i] is the bilinear
    blend of the four samples of the current frame around the rounded base
    cell [(xi, yi)], minus the stored reference intensity of (point [i],
    channel [c]): the four products [w00 * I(xi, yi)], [w01 * I(xi+1, yi)],
    [w10 * I(xi, yi+1)], [w11 * I(xi+1, yi+1)] are rounded, summed with a
    rounding after every addition in one of the orders of Eigen's dot
    product, and the difference with the reference is rounded.  The weights
    are the rounded products [w00 = (1-yf)(1-xf)], [w01 = (1-yf) xf],
    [w10 = yf (1-xf)], [w11 = yf xf] of the rounded offsets. *)
Theorem computeResiduals_blend st ch pose residuals valid st' res val i p v c :
  Single.dot_contract rnd vdot →
  Single.computeResiduals rnd vdot st ch pose residuals valid
    = Some (st', res, val) →
  _points st !! i = Some p →
  val !! i = Some v → v ≠ 0 →
  (c < size ch)%nat →
  let N := numPoints st in
  let x := project (setPose (_warp st) pose) p in
  let xi := Qfloor (rnd (x.1 + (1 # 2))) in
  let yi := Qfloor (rnd (x.2 + (1 # 2))) in
  let xf := rnd (x.1 - rnd (inject_Z xi)) in
  let yf := rnd (x.2 - rnd (inject_Z yi)) in
  let w00 := rnd (rnd (1 - yf) * rnd (1 - xf)) in
  let w01 := rnd (rnd (1 - yf) * xf) in
  let w10 := rnd (yf * rnd (1 - xf)) in
  let w11 := rnd (yf * xf) in
  let I := Mat_at (channel ch c) in
  ∃ I00 I01 I10 I11 I0 Iw,
    I yi xi = Some I00 ∧ I yi (xi + 1) = Some I01 ∧
    I (yi + 1) xi = Some I10 ∧ I (yi + 1) (xi + 1) = Some I11 ∧
    _pixels st !! (c * N + i)%nat = Some I0 ∧
    (let p00 := rnd (w00 * rnd I00) in
     let p01 := rnd (w01 * rnd I01) in
     let p10 := rnd (w10 * rnd I10) in
     let p11 := rnd (w11 * rnd I11) in
     Iw = rnd (rnd (p00 + p10) + rnd (p01 + p11)) ∨
     Iw = rnd (rnd (p00 + p01) + rnd (p10 + p11)) ∨
     Iw = rnd (rnd (rnd (p00 + p01) + p10) + p11)) ∧
    res !! (c * N + i)%nat = Some (rnd (Iw - I0)).
Proof.
  intros Hdot (uv & cf & Hpass1 & _ & _ & Hslots)%Single_computeResiduals_post
    Hp Hv Hv0 Hc N x xi yi xf yf w00 w01 w10 w11 I.
  destruct (Single_pass1_post rnd _ _ _ _ _ _ _ Hpass1) as (_ & _ & _ & Hpts).
  destruct (Hpts i p Hp) as (t & Ht & Huv & Hvl & Hcf). fold x in Ht.
  unfold Single.point_coeffs, Single.cvFloor in Ht.
  destruct (decide (Single.INT_MIN ≤ Qfloor (rnd (x.1 + (1 # 2))) ≤ _));
    [|done].
  destruct (decide (Single.INT_MIN ≤ Qfloor (rnd (x.2 + (1 # 2))) ≤ _));
    [|done].
  simpl in Ht. injection Ht as <-. simpl in Huv, Hcf.
  fold xi yi in Huv, Hcf. fold xf yf in Hcf. fold w00 w01 w10 w11 in Hcf.
  destruct (Hslots c i) as (r & Hr & Hres); [done|by eapply lookup_lt_Some|].
  fold N in Hr, Hres. unfold Single.residual_at in Hr.
  rewrite Hv in Hr. simpl in Hr. rewrite decide_True in Hr by done.
  unfold Vector2i, Vector4f in *. rewrite Huv, Hcf in Hr. simpl in Hr.
  unfold I, Mat_at. fold (channelData ch c).
  replace (yi * cols (channel ch c) + (xi + 1))
    with (yi * cols (channel ch c) + xi + 1) by lia.
  replace ((yi + 1) * cols (channel ch c) + xi)
    with (yi * cols (channel ch c) + xi + cols (channel ch c)) by lia.
  replace ((yi + 1) * cols (channel ch c) + (xi + 1))
    with (yi * cols (channel ch c) + xi + cols (channel ch c) + 1) by lia.
  set (ii := yi * cols (channel ch c) + xi) in *.
  destruct (ptr_read _ ii) as [I00|]; [|done].
  destruct (ptr_read _ (ii + 1)) as [I01|]; [|done].
  destruct (ptr_read _ (ii + cols (channel ch c))) as [I10|]; [|done].
  destruct (ptr_read _ (ii + cols (channel ch c) + 1)) as [I11|]; [|done].
  destruct (_pixels st !! _) as [I0|]; [|done].
  simpl in Hr. injection Hr as <-.
  exists I00, I01, I10, I11, I0,
    (vdot (w00, w01, w10, w11) (rnd I00, rnd I01, rnd I10, rnd I11)).
  do 5 (split; [done|]). split; [|exact Hres].
  destruct (Hdot w00 w01 w10 w11 (rnd I00) (rnd I01) (rnd I10) (rnd I11))
    as [Hd|[Hd|Hd]]; rewrite Hd; auto.
Qed.

(** On well-formed channels, a store whose pixel array covers every channel
    and points whose base cells are in the range of [int], the call is
    defined: no access leaves its buffer. *)
Lemma Single_computeResiduals_total st ch pose residuals valid :
  Channels_wf ch →
  (size ch * numPoints st ≤ length (_pixels st))%nat →
  (∀ p, p ∈ _points st →
     let x := project (setPose (_warp st) pose) p in
     is_Some (Single.cvFloor (rnd (x.1 + (1 # 2)))) ∧
     is_Some (Single.cvFloor (rnd (x.2 + (1 # 2))))) →
  is_Some (Single.computeResiduals rnd vdot st ch pose residuals valid).
Proof.
  intros (Hsize & _ & _ & Hch) Hpix Hrange. unfold Single.computeResiduals.
  destruct (Single_pass1_total rnd st ch pose valid Hrange)
    as [[[uv vl] cf] Hpass1].
  rewrite Hpass1. simpl.
  destruct (Single_pass1_post rnd _ _ _ _ _ _ _ Hpass1)
    as (Huv & Hvl & Hcf & Hpts).
  match goal with
  | |- context [for_range 0 (size ch) ?body ?init] =>
      assert (for_range 0 (size ch) body init =
              fill_rows (Single.residual_at rnd vdot uv vl cf (_pixels st)
                           (numPoints st) ch) (numPoints st) 0 (size ch) init)
        as ->
  end.
  { apply for_range_ext. intros c r _. apply for_range_ext. intros i t _.
    apply Single_residual_fill. }
  destruct (fill_rows_total
    (Single.residual_at rnd vdot uv vl cf (_pixels st) (numPoints st) ch)
    (numPoints st) 0 (size ch) (resize (length (_pixels st)) 0%Q residuals))
    as [res ->]; [|done].
  intros c i Hc Hi. rewrite length_resize. split; [|nia].
  destruct (lookup_lt_is_Some_2 (_points st) i) as [p Hp];
    [unfold numPoints in Hi; lia|].
  destruct (Hpts i p Hp) as ([[[xi yi] fl] w] & Ht & Hxy & Hfl & Hw).
  simpl in Hxy, Hfl, Hw.
  assert (fl = valid_flag (rows (channel ch 0) - 1) (cols (channel ch 0) - 1)
                 (xi, yi)) as ->.
  { unfold Single.point_coeffs in Ht.
    destruct (Single.cvFloor (rnd ((project _ p).1 + _))) as [xi'|]; [|done].
    cbn [mbind option_bind] in Ht.
    destruct (Single.cvFloor (rnd ((project _ p).2 + _))) as [yi'|]; [|done].
    cbn [mbind option_bind] in Ht.
    by injection Ht as <- <- <- _. }
  assert (c * numPoints st + i < length (_pixels st))%nat as Hslot by nia.
  destruct (lookup_lt_is_Some_2 (_pixels st) _ Hslot) as [I0 HI0].
  unfold Single.residual_at. rewrite Hfl. simpl.
  destruct (valid_flag_cases (rows (channel ch 0) - 1)
              (cols (channel ch 0) - 1) (xi, yi))
    as [(-> & Hx & Hy)|(-> & _)]; [|by rewrite decide_False by lia].
  rewrite decide_True by lia. unfold Vector2i, Vector4f in *.
  rewrite Hxy, Hw. simpl in *.
  destruct (Hch c) as (Hrows & Hcols & Hlen); [lia|].
  rewrite <-Hcols in Hx. rewrite <-Hrows in Hy.
  destruct (footprint_in_bounds _ _ _ _ Hx Hy) as [Hlo Hhi].
  set (ii := yi * cols (channel ch c) + xi) in *.
  assert (∀ k, ii ≤ k ≤ ii + cols (channel ch c) + 1 →
               is_Some (ptr_read (channelData ch c) k)) as Hread.
  { intros k Hk. apply ptr_read_in_bounds. unfold channelData. lia. }
  destruct (Hread ii) as [a ->]; [lia|].
  destruct (Hread (ii + 1)) as [b ->]; [lia|].
  destruct (Hread (ii + cols (channel ch c))) as [c' ->]; [lia|].
  destruct (Hread (ii + cols (channel ch c) + 1)) as [d ->]; [lia|].
  simpl. by rewrite HI0.
Qed.

End SingleResidualsClaims.

(** ** Single precision: what [setData] stores *)

Section SingleSetData.
Context `{WarpType Warp} `{ChannelsType Channels} `{DisparityType Disparity}.
Variable rnd : Q → Q.
Implicit Types (st : TemplateData) (ch : Channels) (D : Disparity)
  (inds : list (Z * Q)) (Jw : list WarpJacobian).

(** One iteration of the inner loop writes the two halves of the slot
    value. *)
Lemma Single_pixel_fill Fx Fy stride ch inds Jw c i
    (PJ : list Q * list Jacobian) :
  Single.setData_pixel rnd Fx Fy stride inds Jw (channelData ch c)
    (c * length inds) i PJ =
  P' ← fill_body (λ c i, fst <$> Single.extracted_value rnd Fx Fy stride ch
                                   inds Jw c i) (length inds) c i PJ.1;
  J' ← fill_body (λ c i, snd <$> Single.extracted_value rnd Fx Fy stride ch
                                   inds Jw c i) (length inds) c i PJ.2;
  Some (P', J').
Proof.
  unfold Single.setData_pixel, fill_body, Single.extracted_value.
  destruct (inds !! i) as [ind|]; [|done]. simpl.
  destruct (ptr_read (channelData ch c) ind.1) as [p|]; [|done]. simpl.
  destruct (ptr_read (channelData ch c) (ind.1 + 1)) as [xp|]; simpl;
    [|by destruct (ptr_write PJ.1 _ (rnd p))].
  destruct (ptr_read (channelData ch c) (ind.1 - 1)) as [xm|]; simpl;
    [|by destruct (ptr_write PJ.1 _ (rnd p))].
  destruct (ptr_read (channelData ch c) (ind.1 + stride)) as [yp|]; simpl;
    [|by destruct (ptr_write PJ.1 _ (rnd p))].
  destruct (ptr_read (channelData ch c) (ind.1 - stride)) as [ym|]; simpl;
    [|by destruct (ptr_write PJ.1 _ (rnd p))].
  destruct (Jw !! i) as [jw|]; simpl; by destruct (ptr_write PJ.1 _ (rnd p)).
Qed.

(** [setData] with its loops in closed form. *)
Lemma Single_setData_unfold st ch D :
  let inds := setData_inds (_pyr_level st) ch D in
  let n := length inds in
  let w := _warp st in
  let stride := cols (computeSaliencyMap ch) in
  let points := point_of w stride <$> inds in
  let val := Single.extracted_value rnd (rnd (K w 0%Z 0%Z * (1 # 2)))
               (rnd (K w 1%Z 1%Z * (1 # 2))) stride ch inds
               (warpJacobianAtZero w <$> points) in
  Single.setData rnd st ch D =
  if is_float_type D then
    P' ← fill_rows (λ c i, fst <$> val c i) n 0 (size ch)
           (resize (n * NumChannels) 0%Q (_pixels st));
    J' ← fill_rows (λ c i, snd <$> val c i) n 0 (size ch)
           (resize (n * NumChannels) Jacobian_uninit (_jacobians st));
    Some (MkTemplateData (_pyr_level st) (J' ++ [Jacobian_Zero]) points P' w)
  else None.
Proof.
  intros inds n w stride points val. unfold Single.setData.
  destruct (is_float_type D); [|done]. simpl.
  fold inds. rewrite setData_points_loop. simpl. rewrite !length_fmap.
  fold w stride points n.
  match goal with
  | |- context [for_range 0 (size ch) ?body (?P0, ?J0)] =>
      assert (for_range 0 (size ch) body (P0, J0) =
              (P' ← fill_rows (λ c i, fst <$> val c i) n 0 (size ch) P0;
               J' ← fill_rows (λ c i, snd <$> val c i) n 0 (size ch) J0;
               Some (P', J'))) as ->
  end.
  { unfold fill_rows. rewrite <-for_range_pair.
    apply for_range_ext. intros c [P1 J1] _. rewrite <-for_range_pair.
    apply for_range_ext. intros i PJ1 _. apply Single_pixel_fill. }
  destruct (fill_rows _ n 0 (size ch) (resize _ 0%Q _)) as [P'|]; [|done].
  simpl. by destruct (fill_rows _ n 0 (size ch) _) as [J'|].
Qed.

(** On channels that meet their contract and a disparity map of float
    type, the extraction is defined. *)
Lemma Single_setData_total st ch D :
  is_float_type D = true → Channels_wf ch →
  is_Some (Single.setData rnd st ch D).
Proof.
  intros Hfloat (Hsize & Hrows & Hcols & Hch).
  rewrite Single_setData_unfold. cbv zeta. rewrite Hfloat.
  set (inds := setData_inds (_pyr_level st) ch D).
  set (n := length inds). set (w := _warp st).
  set (stride := cols (computeSaliencyMap ch)) in *.
  set (Jw := warpJacobianAtZero w <$> (point_of w stride <$> inds)).
  set (val := Single.extracted_value rnd _ _ stride ch inds Jw).
  assert (∀ c i, (0 ≤ c < 0 + size ch)%nat → (i < n)%nat →
            is_Some (val c i)) as Hval.
  { intros c i Hc Hi. unfold val, Single.extracted_value.
    destruct (lookup_lt_is_Some_2 inds i) as [ind Hind]; [done|].
    destruct (lookup_lt_is_Some_2 Jw i) as [jw Hjw].
    { unfold Jw. by rewrite !length_fmap. }
    destruct (setData_inds_interior (_pyr_level st) ch D ind)
      as (y & x & Hy & Hx & Hidx & _).
    { apply list_elem_of_lookup. by exists i. }
    destruct (Hch c) as (Hr & Hc' & Hlen); [lia|].
    fold stride in Hx, Hidx. unfold channelData.
    assert (∀ k, ind.1 - stride ≤ k ≤ ind.1 + stride →
                 is_Some (ptr_read (data (channel ch c)) k)) as Hread.
    { intros k Hk. apply ptr_read_in_bounds. nia. }
    rewrite Hind. simpl.
    destruct (Hread ind.1) as [p ->]; [lia|].
    destruct (Hread (ind.1 + 1)) as [xp ->]; [lia|].
    destruct (Hread (ind.1 - 1)) as [xm ->]; [lia|].
    destruct (Hread (ind.1 + stride)) as [yp ->]; [lia|].
    destruct (Hread (ind.1 - stride)) as [ym ->]; [lia|].
    simpl. by rewrite Hjw. }
  destruct (fill_rows_total (λ c i, fst <$> val c i) n 0 (size ch)
              (resize (n * NumChannels) 0%Q (_pixels st))) as [P' ->].
  { intros c i Hc Hi. rewrite length_resize. split; [|nia].
    by apply fmap_is_Some, Hval. }
  simpl.
  destruct (fill_rows_total (λ c i, snd <$> val c i) n 0 (size ch)
              (resize (n * NumChannels) Jacobian_uninit (_jacobians st)))
    as [J' ->]; [|done].
  intros c i Hc Hi. rewrite length_resize. split; [|nia].
  by apply fmap_is_Some, Hval.
Qed.

(** C6.  For the selected point [i], at linear index [idx], and every
    channel [c], [setData] stores at slot [c * N + i] the intensity [I[idx]]
    of the channel converted to [float], and the row [(gx, gy)] times the
    warp Jacobian at the identity pose of the point: entry [k] is
    [gx * Jw(0,k) + gy * Jw(1,k)].  Here [gx = Fx * Ix] and [gy = Fy * Iy],
    with the central differences [Ix = I[idx + 1] - I[idx - 1]],
    [Iy = I[idx + stride] - I[idx - stride]], [stride] the columns of the
    saliency map, [Fx = K(0,0) * 0.5f] and [Fy = K(1,1) * 0.5f]; every
    product, difference and sum is rounded to single precision.  The point
    is the one made from the column and row of [idx] and the depth of the
    pixel. *)
Theorem setData_reference_and_jacobian st ch D st' i idx d c :
  Single.setData rnd st ch D = Some st' →
  setData_inds (_pyr_level st) ch D !! i = Some (idx, d) →
  (c < size ch)%nat →
  let N := length (setData_inds (_pyr_level st) ch D) in
  let stride := cols (computeSaliencyMap ch) in
  let I k := ptr_read (channelData ch c) k in
  let Fx := rnd (K (_warp st') 0%Z 0%Z * (1 # 2)) in
  let Fy := rnd (K (_warp st') 1%Z 1%Z * (1 # 2)) in
  let yx := ind2sub stride idx in
  let point := makePoint (_warp st') yx.2 yx.1 d in
  let Jw := warpJacobianAtZero (_warp st') point in
  ∃ p xp xm yp ym jac,
    I idx = Some p ∧ I (idx + 1) = Some xp ∧ I (idx - 1) = Some xm ∧
    I (idx + stride) = Some yp ∧ I (idx - stride) = Some ym ∧
    _points st' !! i = Some point ∧
    _pixels st' !! (c * N + i)%nat = Some (rnd p) ∧
    _jacobians st' !! (c * N + i)%nat = Some jac ∧
    let gx := rnd (Fx * rnd (rnd xp - rnd xm)) in
    let gy := rnd (Fy * rnd (rnd yp - rnd ym)) in
    length jac = (length Jw.1 `min` length Jw.2)%nat ∧
    ∀ k a b, Jw.1 !! k = Some a → Jw.2 !! k = Some b →
      jac !! k = Some (rnd (rnd (gx * a) + rnd (gy * b))).
Proof.
  intros Hrun Hind Hc N stride I Fx Fy yx point Jw.
  rewrite Single_setData_unfold in Hrun. cbv zeta in Hrun.
  destruct (is_float_type D); [|done].
  fold N stride in Hrun.
  destruct (fill_rows _ N 0 (size ch) (resize _ 0%Q _)) as [P'|] eqn:HP;
    [|done].
  simpl in Hrun.
  destruct (fill_rows _ N 0 (size ch) (resize _ Jacobian_uninit _))
    as [J'|] eqn:HJ; [|done].
  simpl in Hrun. injection Hrun as <-. simpl in *.
  assert (i < N)%nat as Hi by (by eapply lookup_lt_Some).
  apply fill_rows_post in HP as (_ & HP & _).
  apply fill_rows_post in HJ as (HlenJ & HJ & _).
  destruct (HP c i) as (_ & _ & HPslot); [lia|done|].
  destruct (HJ c i) as ([jac Hjac] & HJlt & HJslot); [lia|done|].
  rewrite Hjac in HJslot.
  unfold Single.extracted_value in HPslot, Hjac.
  rewrite Hind in HPslot, Hjac. simpl in HPslot, Hjac.
  rewrite !list_lookup_fmap, Hind in HPslot, Hjac. simpl in HPslot, Hjac.
  unfold I.
  destruct (ptr_read (channelData ch c) idx) as [p|]; [|done].
  destruct (ptr_read (channelData ch c) (idx + 1)) as [xp|]; [|done].
  destruct (ptr_read (channelData ch c) (idx - 1)) as [xm|]; [|done].
  destruct (ptr_read (channelData ch c) (idx + stride)) as [yp|]; [|done].
  destruct (ptr_read (channelData ch c) (idx - stride)) as [ym|]; [|done].
  simpl in HPslot, Hjac. injection Hjac as <-.
  assert (point_of (_warp st) stride (idx, d) = point) as Hpoint.
  { unfold point_of, point, yx. simpl. by destruct (ind2sub stride idx). }
  rewrite Hpoint in HJslot. fold Jw Fx Fy in HJslot.
  eexists p, xp, xm, yp, ym, _. do 5 (split; [done|]).
  split; [by rewrite list_lookup_fmap, Hind; simpl; rewrite Hpoint|].
  split; [exact HPslot|].
  split.
  { rewrite lookup_app_l; [exact HJslot|]. by eapply lookup_lt_Some. }
  unfold Single.ImageGradient_mul. split; [apply length_zip_with|].
  intros k a b Ha Hb. rewrite lookup_zip_with, Ha. simpl. by rewrite Hb.
Qed.
End SingleSetData.

(** ** Single precision on the fixtures *)

(** [binary32] on a few values: [0.1f], a tie just below 1, a tie between
    two integers above [2^23], and the smallest subnormal number. *)
Example binary32_values :
  binary32 (1 # 10) = (13421773 # 134217728)%Q ∧
  binary32 (1 - (1 # 33554432)) = 1%Q ∧
  binary32 (8388609 + (1 # 2)) = 8388610%Q ∧
  binary32 (16777217) = 16777216%Q ∧
  binary32 (3 # 4) = (3 # 4)%Q ∧
  binary32 ((3 # 4) * Qpower 2 (- 149)) = Qred (Qpower 2 (- 149)).
Proof. vm_compute. repeat split. Qed.

Lemma dot_packet_contract : Single.dot_contract binary32 dot_packet.
Proof. intros w0 w1 w2 w3 v0 v1 v2 v3. by left. Qed.

Lemma tenth_populated_extracted :
  Single.setData binary32 tenth_store steep_frame depth = Some tenth_populated.
Proof. vm_compute. reflexivity. Qed.

Lemma out_single_computed :
  Single.computeResiduals binary32 dot_packet populated frame nudged
    stale_residuals stale_valid
  = Some (out_single.1.1, out_single.1.2, out_single.2).
Proof. vm_compute. reflexivity. Qed.



(** Under the pose of a quarter and a half pixel every operation is exact
    and the residuals are [8 / 2 + 1 / 4]; under the pose [(0.1f, 0.2f)]
    they are rounded: none is the exact [8 * 0.2 + 0.1], all are within
    [10^-5] of it. *)
Example residuals_in_single_precision :
  out_single.1.2 = replicate 9 (17 # 4)%Q ∧
  Forall (λ r, ¬ (r == 17 # 10)%Q ∧
               ((17 # 10) - (1 # 100000) <= r)%Q ∧
               (r <= (17 # 10) + (1 # 100000))%Q)
    out_tilted.1.2.
Proof.
  split; [vm_compute; reflexivity|].
  vm_compute. repeat constructor; discriminate.
Qed.

(** In single precision the column [0.5 - 2^-25] has the base cell 1: the
    sum with [0.5f] rounds to 1.  Its exact floor is 0. *)
Example base_cell_just_below_half :
  Single.point_coeffs binary32 7 7 ((1 # 2) - (1 # 33554432), 2)%Q
    = Some ((1, 2), 1, (3 # 2, - 1 # 2, 0, 0)%Q) ∧
  Qfloor ((1 # 2) - (1 # 33554432) + (1 # 2)) = 0.
Proof. vm_compute. split; reflexivity. Qed.

(** C1 on the fixture: the first point, shifted to (2.25, 2.5), has base
    cell (2, 3); the blend of the samples 26, 27, 34, 35 with the weights
    9/8, 3/8, -3/8, -1/8 is 22.25, and the reference intensity is 18. *)
Lemma computeResiduals_blend_witness :
  Single.dot_contract binary32 dot_packet ∧
  Single.computeResiduals binary32 dot_packet populated frame nudged
    stale_residuals stale_valid
    = Some (out_single.1.1, out_single.1.2, out_single.2) ∧
  _points populated !! 0%nat = Some corner ∧
  out_single.2 !! 0%nat = Some 1 ∧ 1 ≠ 0 ∧ (0 < size frame)%nat ∧
  out_single.1.2 !! 0%nat = Some (17 # 4)%Q ∧
  let x := project (setPose (_warp populated) nudged) corner in
  let xi := Qfloor (binary32 (x.1 + (1 # 2))) in
  let yi := Qfloor (binary32 (x.2 + (1 # 2))) in
  let xf := binary32 (x.1 - binary32 (inject_Z xi)) in
  let yf := binary32 (x.2 - binary32 (inject_Z yi)) in
  let w00 := binary32 (binary32 (1 - yf) * binary32 (1 - xf)) in
  let w01 := binary32 (binary32 (1 - yf) * xf) in
  let w10 := binary32 (yf * binary32 (1 - xf)) in
  let w11 := binary32 (yf * xf) in
  ∃ I00 I01 I10 I11 I0 Iw,
    Mat_at ramp yi xi = Some I00 ∧ Mat_at ramp yi (xi + 1) = Some I01 ∧
    Mat_at ramp (yi + 1) xi = Some I10 ∧
    Mat_at ramp (yi + 1) (xi + 1) = Some I11 ∧
    _pixels populated !! 0%nat = Some I0 ∧
    (let p00 := binary32 (w00 * binary32 I00) in
     let p01 := binary32 (w01 * binary32 I01) in
     let p10 := binary32 (w10 * binary32 I10) in
     let p11 := binary32 (w11 * binary32 I11) in
     Iw = binary32 (binary32 (p00 + p10) + binary32 (p01 + p11)) ∨
     Iw = binary32 (binary32 (p00 + p01) + binary32 (p10 + p11)) ∨
     Iw = binary32 (binary32 (binary32 (p00 + p01) + p10) + p11)) ∧
    out_single.1.2 !! 0%nat = Some (binary32 (Iw - I0)).
Proof.
  assert (_points populated !! 0%nat = Some corner) as Hp by reflexivity.
  assert (out_single.2 !! 0%nat = Some 1) as Hv by reflexivity.
  assert (1 ≠ 0) as Hv0 by lia.
  assert (0 < size frame)%nat as Hc by (simpl; lia).
  split; [exact dot_packet_contract|]. split; [exact out_single_computed|].
  split; [exact Hp|]. split; [exact Hv|]. split; [exact Hv0|].
  split; [exact Hc|]. split; [reflexivity|].
  exact (computeResiduals_blend binary32 dot_packet populated frame nudged
           stale_residuals stale_valid out_single.1.1 out_single.1.2
           out_single.2 0 corner 1 0 dot_packet_contract out_single_computed
           Hp Hv Hv0 Hc).
Defined.


(** The same point in numbers. *)
Example far_point_offset :
  project (setPose (_warp populated) far) corner = (2 + 8388607, 2 + 0)%Q ∧
  far_pass1.1.1 !! 0%nat = Some (8388610, 2) ∧
  binary32 (8388609 - binary32 (inject_Z 8388610)) = (- 1)%Q ∧
  far_pass1.2 !! 0%nat = Some (2, - 1, 0, 0)%Q.
Proof. vm_compute. repeat split. Qed.


(** The premises of the bound hold at that point: its sums and differences
    are exact, and its offsets are [1/4] and [-1/2]. *)
Example nudged_offsets_exact :
  let x := project (setPose (_warp populated) nudged) corner in
  (binary32 (x.1 + (1 # 2)) == x.1 + (1 # 2))%Q ∧
  (binary32 (x.2 + (1 # 2)) == x.2 + (1 # 2))%Q ∧
  binary32 (x.1 - binary32 (inject_Z 2)) = (1 # 4)%Q ∧
  binary32 (x.2 - binary32 (inject_Z 3)) = (- 1 # 2)%Q.
Proof. vm_compute. repeat split. Qed.

(** C6 on a fixture that rounds: the centre pixel (3, 3) of the ramp of
    slope 3, with [Fx = Fy = 0.05f].  The differences are 6 and 48; the
    products [0.05f * 6] and [0.05f * 48] are rounded. *)
Lemma setData_reference_and_jacobian_witness :
  Single.setData binary32 tenth_store steep_frame depth = Some tenth_populated ∧
  setData_inds (_pyr_level tenth_store) steep_frame depth !! 4%nat
    = Some (27, 1%Q) ∧
  (0 < size steep_frame)%nat ∧
  _pixels tenth_populated !! 4%nat = Some 81%Q ∧
  _jacobians tenth_populated !! 4%nat
    = Some [5033165 # 16777216; 5033165 # 2097152]%Q ∧
  let stride := cols (computeSaliencyMap steep_frame) in
  let I k := ptr_read (channelData steep_frame 0) k in
  let Fx := binary32 (K (_warp tenth_populated) 0%Z 0%Z * (1 # 2)) in
  let Fy := binary32 (K (_warp tenth_populated) 1%Z 1%Z * (1 # 2)) in
  let yx := ind2sub stride 27 in
  let point := makePoint (_warp tenth_populated) yx.2 yx.1 1%Q in
  let Jw := warpJacobianAtZero (_warp tenth_populated) point in
  ∃ p xp xm yp ym jac,
    I 27 = Some p ∧ I (27 + 1) = Some xp ∧ I (27 - 1) = Some xm ∧
    I (27 + stride) = Some yp ∧ I (27 - stride) = Some ym ∧
    _points tenth_populated !! 4%nat = Some point ∧
    _pixels tenth_populated !! (0 * 9 + 4)%nat = Some (binary32 p) ∧
    _jacobians tenth_populated !! (0 * 9 + 4)%nat = Some jac ∧
    let gx := binary32 (Fx * binary32 (binary32 xp - binary32 xm)) in
    let gy := binary32 (Fy * binary32 (binary32 yp - binary32 ym)) in
    length jac = (length Jw.1 `min` length Jw.2)%nat ∧
    ∀ k a b, Jw.1 !! k = Some a → Jw.2 !! k = Some b →
      jac !! k = Some (binary32 (binary32 (gx * a) + binary32 (gy * b))).
Proof.
  assert (setData_inds (_pyr_level tenth_store) steep_frame depth !! 4%nat
          = Some (27, 1%Q)) as Hind by reflexivity.
  assert (0 < size steep_frame)%nat as Hc by (simpl; lia).
  split; [exact tenth_populated_extracted|]. split; [exact Hind|].
  split; [exact Hc|]. split; [reflexivity|]. split; [reflexivity|].
  exact (setData_reference_and_jacobian binary32 tenth_store steep_frame depth
           tenth_populated 4 27 1%Q 0 tenth_populated_extracted Hind Hc).
Defined.

(** The stored row is not the exact product: [0.05f * 6] needs 26 bits. *)
Example jacobian_is_rounded :
  binary32 (binary32 (1 # 10) * (1 # 2)) = (13421773 # 268435456)%Q ∧
  ((13421773 # 268435456) * 6 == 40265319 # 134217728)%Q ∧
  binary32 ((13421773 # 268435456) * 6) = (5033165 # 16777216)%Q ∧
  ¬ (5033165 # 16777216 == 40265319 # 134217728)%Q.
Proof. vm_compute. repeat split; discriminate. Qed.
